(** * Circle of fifths: the spelling engine of [src/CircleOfFifths.tsx]

    A shallow embedding of the pure part of the component: note tokens and
    their normalisation, key signatures, enharmonic resolution, the scale
    builder, the diatonic chord tables and the MIDI mapping.

    Strings are ECMAScript strings, that is sequences of UTF-16 code units;
    numbers are the integers the program computes with, in [Z]; a read that
    ECMAScript answers with [undefined] is written out, and so is the
    [TypeError] of a property read on [undefined]. *)

From Stdlib Require Import ZArith NArith List String Ascii Bool Lia.
Import ListNotations.
Open Scope Z_scope.

(* ================================================================== *)
(** ** The ECMAScript primitives the program calls *)

Module JS.

(** A string is the list of its UTF-16 code units. *)
Definition jsstring : Type := list N.

(** Source literals are written as Rocq strings (UTF-8 bytes) and decoded
    to code units; an astral code point becomes a surrogate pair. *)
Fixpoint utf16 (bs : list N) : jsstring :=
  (match bs with
   | [] => []
   | b :: r1 =>
     if b <? 0x80 then b :: utf16 r1
     else
       match r1 with
       | [] => [b]
       | b2 :: r2 =>
         if b <? 0xE0 then ((b - 0xC0) * 64 + (b2 - 0x80)) :: utf16 r2
         else
           match r2 with
           | [] => [b; b2]
           | b3 :: r3 =>
             if b <? 0xF0
             then ((b - 0xE0) * 4096 + (b2 - 0x80) * 64 + (b3 - 0x80)) :: utf16 r3
             else
               match r3 with
               | [] => [b; b2; b3]
               | b4 :: r4 =>
                 let cp := (b - 0xF0) * 262144 + (b2 - 0x80) * 4096
                           + (b3 - 0x80) * 64 + (b4 - 0x80) in
                 let v := cp - 0x10000 in
                 (0xD800 + v / 1024) :: (0xDC00 + v mod 1024) :: utf16 r4
               end
           end
       end
   end)%N.

Definition js (s : string) : jsstring :=
  utf16 (map N_of_ascii (list_ascii_of_string s)).
Arguments js s%_string.

(** A value that may be [undefined]: the result of an index or property
    read, an array element. *)
Inductive value : Type :=
| undefined
| Str (s : jsstring).

(** The completion of a call that may throw. *)
Inductive outcome (A : Type) : Type :=
| Returns (a : A)
| TypeError.
Arguments Returns {A} a.
Arguments TypeError {A}.

(** [a === b] on strings. *)
Fixpoint str_eqb (a b : jsstring) : bool :=
  match a, b with
  | [], [] => true
  | x :: a', y :: b' => N.eqb x y && str_eqb a' b'
  | _, _ => false
  end.

(** [a === b] on values that are strings or [undefined]. *)
Definition strict_eqb (a b : value) : bool :=
  match a, b with
  | undefined, undefined => true
  | Str x, Str y => str_eqb x y
  | _, _ => false
  end.

(** [s.startsWith(pat)]. *)
Fixpoint startsWith (pat s : jsstring) : bool :=
  match pat, s with
  | [], _ => true
  | p :: pat', c :: s' => N.eqb p c && startsWith pat' s'
  | _ :: _, [] => false
  end.

(** [s.includes(pat)]. *)
Fixpoint includes (pat s : jsstring) : bool :=
  startsWith pat s ||
  match s with
  | [] => false
  | _ :: s' => includes pat s'
  end.

(** [s.replace(/pat/g, rep)] for a literal, non-empty [pat]: the matches
    are taken left to right and do not overlap.  [skip] counts the units
    of the current match that are still to be dropped. *)
Fixpoint replaceAll_from (pat rep : jsstring) (skip : nat) (s : jsstring)
  : jsstring :=
  match s with
  | [] => []
  | c :: s' =>
    match skip with
    | S k => replaceAll_from pat rep k s'
    | O =>
      if startsWith pat s
      then rep ++ replaceAll_from pat rep (pred (List.length pat)) s'
      else c :: replaceAll_from pat rep O s'
    end
  end.

Definition replaceAll (pat rep s : jsstring) : jsstring :=
  replaceAll_from pat rep O s.

(** [s.replace(pat, rep)] with a string pattern: the first match only. *)
Fixpoint replaceFirst (pat rep s : jsstring) : jsstring :=
  if startsWith pat s then rep ++ skipn (List.length pat) s
  else
    match s with
    | [] => []
    | c :: s' => c :: replaceFirst pat rep s'
    end.

(** [s.split(sep)] for a separator of one code unit.  The array always has
    a first part; the model returns it with the list of the parts after
    it. *)
Fixpoint split (sep : N) (s : jsstring) : jsstring * list jsstring :=
  match s with
  | [] => ([], [])
  | c :: s' =>
    let (p, ps) := split sep s' in
    if N.eqb c sep then ([], p :: ps) else (c :: p, ps)
  end.

(** White space and line terminators, the units [trim] removes. *)
Definition isWhiteSpace (c : N) : bool :=
  (existsb (N.eqb c)
     [0x09; 0x0A; 0x0B; 0x0C; 0x0D; 0x20; 0xA0; 0x1680; 0x2028; 0x2029;
      0x202F; 0x205F; 0x3000; 0xFEFF]
   || ((0x2000 <=? c) && (c <=? 0x200A)))%N.

Fixpoint trimStart (s : jsstring) : jsstring :=
  match s with
  | [] => []
  | c :: s' => if isWhiteSpace c then trimStart s' else s
  end.

Definition trimEnd (s : jsstring) : jsstring := rev (trimStart (rev s)).

Definition trim (s : jsstring) : jsstring := trimEnd (trimStart s).

(** [s[0]]: a string of one unit, or [undefined]. *)
Definition first (s : jsstring) : value :=
  match s with
  | [] => undefined
  | c :: _ => Str [c]
  end.

(** [s.slice(1)]. *)
Definition slice1 (s : jsstring) : jsstring := tl s.

(** Case mapping.  On the ASCII range this is ECMAScript's mapping; a unit
    outside it is left as it is, where ECMAScript applies the Unicode
    mapping.  Every token of the program's tables is ASCII. *)
Definition upper_unit (c : N) : N :=
  (if (0x61 <=? c) && (c <=? 0x7A) then c - 0x20 else c)%N.

Definition lower_unit (c : N) : N :=
  (if (0x41 <=? c) && (c <=? 0x5A) then c + 0x20 else c)%N.

Definition toUpperCase (s : jsstring) : jsstring := map upper_unit s.
Definition toLowerCase (s : jsstring) : jsstring := map lower_unit s.

(** The string a value contributes to a [+] concatenation. *)
Definition toStr (v : value) : jsstring :=
  match v with
  | undefined => js "undefined"
  | Str s => s
  end.

(** [arr[i]] for an integer [i]: [undefined] outside the array. *)
Definition get (arr : list value) (i : Z) : value :=
  if i <? 0 then undefined else nth (Z.to_nat i) arr undefined.

(** [arr[i] = v] for [i >= 0]: an index past the end extends the array,
    and the holes read as [undefined]. *)
Fixpoint set (arr : list value) (i : nat) (v : value) : list value :=
  match i, arr with
  | O, [] => [v]
  | O, _ :: t => v :: t
  | S k, [] => undefined :: set [] k v
  | S k, x :: t => x :: set t k v
  end.

(** [arr.indexOf(x)], by strict equality; [-1] when absent. *)
Fixpoint indexOf_from (arr : list value) (x : value) (i : Z) : Z :=
  match arr with
  | [] => -1
  | y :: t => if strict_eqb y x then i else indexOf_from t x (i + 1)
  end.

Definition indexOf (arr : list value) (x : value) : Z := indexOf_from arr x 0.

(** [obj[key]] on an object literal, as the list of its own entries.  The
    keys the program looks up are one unit followed by [#] and [b] marks,
    so that no property inherited from [Object.prototype] is ever named. *)
Fixpoint lookup {A : Type} (obj : list (jsstring * A)) (key : jsstring)
  : option A :=
  match obj with
  | [] => None
  | (k, v) :: t => if str_eqb k key then Some v else lookup t key
  end.

(** The number of matches of [s.match(/c/g)] for one unit [c], and [0]
    when there is none. *)
Definition count_unit (c : N) (s : jsstring) : Z :=
  Z.of_nat (List.length (filter (N.eqb c) s)).

(** A number that may be [NaN]. *)
Inductive number : Type :=
| NaN
| Num (z : Z).

(** [x >= 0], where [x] is a number or [undefined]: [undefined] converts
    to [NaN], and every comparison with [NaN] is false. *)
Definition ge0 (x : option Z) : bool :=
  match x with
  | None => false
  | Some z => 0 <=? z
  end.

(** [Math.abs(x)]. *)
Definition abs (x : option Z) : number :=
  match x with
  | None => NaN
  | Some z => Num (Z.abs z)
  end.

(** [x === 0]. *)
Definition is_zero (x : number) : bool :=
  match x with
  | NaN => false
  | Num z => z =? 0
  end.

(** [arr.slice(0, n)]: [NaN] counts as [0], a negative [n] from the
    end. *)
Definition slice0 {A : Type} (arr : list A) (n : number) : list A :=
  match n with
  | NaN => []
  | Num z =>
    if z <? 0 then firstn (List.length arr - Z.to_nat (- z)) arr
    else firstn (Z.to_nat z) arr
  end.

End JS.
Import JS.

(* ================================================================== *)
(** ** Circle data *)

Record Pos : Type := { pos_major : jsstring; pos_minor : jsstring; pos_acc : Z }.

Definition POSITIONS : list Pos :=
  [ {| pos_major := js "C";       pos_minor := js "a";       pos_acc := 0 |};
    {| pos_major := js "G";       pos_minor := js "e";       pos_acc := 1 |};
    {| pos_major := js "D";       pos_minor := js "b";       pos_acc := 2 |};
    {| pos_major := js "A";       pos_minor := js "f#";      pos_acc := 3 |};
    {| pos_major := js "E";       pos_minor := js "c#";      pos_acc := 4 |};
    {| pos_major := js "B";       pos_minor := js "g#";      pos_acc := 5 |};
    {| pos_major := js "F# / Gb"; pos_minor := js "d# / eb"; pos_acc := 6 |};
    {| pos_major := js "Db / C#"; pos_minor := js "bb / a#"; pos_acc := -5 |};
    {| pos_major := js "Ab";      pos_minor := js "f";       pos_acc := -4 |};
    {| pos_major := js "Eb";      pos_minor := js "c";       pos_acc := -3 |};
    {| pos_major := js "Bb";      pos_minor := js "g";       pos_acc := -2 |};
    {| pos_major := js "F";       pos_minor := js "d";       pos_acc := -1 |} ].

(** ** Accidentals and letter pitch classes *)

Definition ORDER_SHARPS : list jsstring :=
  [js "F"; js "C"; js "G"; js "D"; js "A"; js "E"; js "B"].
Definition ORDER_FLATS : list jsstring :=
  [js "B"; js "E"; js "A"; js "D"; js "G"; js "C"; js "F"].

Definition NAT_PC : list (jsstring * Z) :=
  [ (js "C", 0); (js "D", 2); (js "E", 4); (js "F", 5); (js "G", 7);
    (js "A", 9); (js "B", 11) ].

Definition MAJOR_SIG_COUNTS : list (jsstring * Z) :=
  [ (js "C", 0); (js "G", 1); (js "D", 2); (js "A", 3); (js "E", 4);
    (js "B", 5); (js "F#", 6); (js "C#", 7);
    (js "F", -1); (js "Bb", -2); (js "Eb", -3); (js "Ab", -4);
    (js "Db", -5); (js "Gb", -6); (js "Cb", -7) ].

Definition MINOR_REL_MAJOR : list (jsstring * jsstring) :=
  [ (js "a", js "C"); (js "e", js "G"); (js "b", js "D"); (js "f#", js "A");
    (js "c#", js "E"); (js "g#", js "B"); (js "d#", js "F#");
    (js "a#", js "C#");
    (js "d", js "F"); (js "g", js "Bb"); (js "c", js "Eb"); (js "f", js "Ab");
    (js "bb", js "Db"); (js "eb", js "Gb"); (js "ab", js "Cb") ].

(** ** String helpers *)

Definition slash : N := 0x2F%N.
Definition sharp : N := 0x23%N.
Definition flat : N := 0x62%N.

Definition asciiNote (n : jsstring) : jsstring :=
  replaceAll (js "𝄫") (js "bb")
    (replaceAll (js "♭") (js "b")
       (replaceAll (js "𝄪") (js "##")
          (replaceAll (js "♯") (js "#") n))).

(** [s.replace(/[^#b]/g, empty)]: every unit that is not a mark goes. *)
Definition keepMarks (s : jsstring) : jsstring :=
  filter (fun c => N.eqb c sharp || N.eqb c flat) s.

Definition normalizeToken (n : jsstring) : jsstring :=
  match n with
  | [] => js "C"
  | _ :: _ =>
    let t := asciiNote n in
    let t := trim (fst (split slash t)) in
    let L := match first t with
             | undefined => js "C"
             | Str c => toUpperCase c
             end in
    let rest := keepMarks (slice1 t) in
    L ++ rest
  end.

Definition normalizeMinorToken (n : jsstring) : jsstring :=
  let t := trim (fst (split slash (asciiNote n))) in
  let L := match first t with
           | undefined => js "a"
           | Str c => toLowerCase c
           end in
  let rest := keepMarks (slice1 t) in
  L ++ rest.

Definition pretty (n : jsstring) : jsstring :=
  replaceAll (js "b") (js "♭")
    (replaceAll (js "#") (js "♯")
       (replaceAll (js "bb") (js "𝄫")
          (replaceAll (js "##") (js "𝄪") n))).

(** ** Enharmonic preference *)

Inductive EnhPref : Type := auto | sharps | flats.

(** The second part of the split is [undefined] on a name of one part, and
    [asciiNote] then throws; the guard on the slash excludes it (see
    [resolveEnharmonic_returns]). *)
Definition resolveEnharmonic (raw : jsstring) (posAcc : Z) (pref : EnhPref)
  : outcome jsstring :=
  if negb (includes (js "/") raw) then Returns raw
  else
    let (p0, ps) := split slash raw in
    let aRaw := trim p0 in
    match ps with
    | [] => TypeError
    | p1 :: _ =>
      let bRaw := trim p1 in
      let a := asciiNote aRaw in
      let aSharp := includes (js "#") a in
      let sharpName := if aSharp then aRaw else bRaw in
      let flatName := if aSharp then bRaw else aRaw in
      match pref with
      | sharps => Returns sharpName
      | flats => Returns flatName
      | auto => Returns (if 0 <=? posAcc then sharpName else flatName)
      end
    end.

(* ================================================================== *)
(** ** Signatures and scale building *)

Inductive AccType : Type := SharpSig | FlatSig.

Record Sig : Type :=
  { sig_type : AccType; sig_count : number; sig_set : list jsstring }.

(** [set.has(x)] on a [Set] of strings. *)
Definition has (set : list jsstring) (x : value) : bool :=
  existsb (fun y => strict_eqb (Str y) x) set.

Definition signatureForMajorName (majorName : jsstring) : Sig :=
  let key := normalizeToken majorName in
  let count := lookup MAJOR_SIG_COUNTS key in
  let type := if ge0 count then SharpSig else FlatSig in
  let letters :=
    slice0 (match type with SharpSig => ORDER_SHARPS | FlatSig => ORDER_FLATS end)
           (abs count) in
  {| sig_type := type; sig_count := abs count; sig_set := letters |}.

(** The letter is a string for the type checker and may be [undefined] at
    run time, when the walk of [buildScaleFromKeyName] starts off the
    letter table. *)
Definition applySignature (letter : value) (sig : Sig) : value :=
  if is_zero (sig_count sig) then letter
  else
    match sig_type sig with
    | SharpSig =>
      if has (sig_set sig) letter then Str (toStr letter ++ js "#") else letter
    | FlatSig =>
      if has (sig_set sig) letter then Str (toStr letter ++ js "b") else letter
    end.

Definition raiseHalfStep (spelled : jsstring) : jsstring :=
  let L := first spelled in
  let acc := slice1 spelled in
  if includes (js "b") acc then toStr L ++ replaceFirst (js "b") [] acc
  else toStr L ++ acc ++ js "#".

Definition relativeMajorFromMinor (minorName : jsstring) (pref : EnhPref)
  : jsstring :=
  let nm := normalizeMinorToken minorName in
  let flats_or (f s : jsstring) :=
    match pref with flats => f | _ => s end in
  if str_eqb nm (js "a#") || str_eqb nm (js "bb")
  then flats_or (js "Db") (js "C#")
  else if str_eqb nm (js "d#") || str_eqb nm (js "eb")
  then flats_or (js "Gb") (js "F#")
  else if str_eqb nm (js "g#") || str_eqb nm (js "ab")
  then flats_or (js "Cb") (js "B")
  else
    match lookup MINOR_REL_MAJOR nm with
    | Some M => M
    | None => js "C"
    end.

Inductive Mode : Type := major | minor.

Definition LETTERS : list value :=
  [Str (js "C"); Str (js "D"); Str (js "E"); Str (js "F"); Str (js "G");
   Str (js "A"); Str (js "B")].

(** [Array.from({length:7}, (_, i) => LETTERS[(start+i)%7])]; [%] truncates
    towards zero, so that a [start] of [-1] reads index [-1] at [i = 0]. *)
Definition walk (start : Z) : list value :=
  map (fun i => get LETTERS (Z.rem (start + i) 7)) [0; 1; 2; 3; 4; 5; 6].

(** The minor branch up to and including [scale[0] = ...], before the
    seventh degree is raised. *)
Definition minorScaleBeforeRaise (tonicRaw : jsstring) (enhPref : EnhPref)
  : outcome (list value) :=
  let tonic := normalizeMinorToken tonicRaw in
  match first tonic with
  | undefined => TypeError
  | Str c =>
    let tonicLetter := toUpperCase c in
    let relMaj := relativeMajorFromMinor tonicRaw enhPref in
    let sig := signatureForMajorName relMaj in
    let start := indexOf LETTERS (Str tonicLetter) in
    let letters := walk start in
    let scale := map (fun L => applySignature L sig) letters in
    Returns (set scale 0 (Str (tonicLetter ++ slice1 tonic)))
  end.

Definition buildScaleFromKeyName (tonicRaw : jsstring) (mode : Mode)
  (enhPref : EnhPref) : outcome (list value) :=
  match mode with
  | major =>
    let tonic := normalizeToken tonicRaw in
    let sig := signatureForMajorName tonic in
    let start := indexOf LETTERS (first tonic) in
    let letters := walk start in
    let scale := map (fun L => applySignature L sig) letters in
    Returns (set scale 0 (Str tonic))
  | minor =>
    match minorScaleBeforeRaise tonicRaw enhPref with
    | TypeError => TypeError
    | Returns scale =>
      match get scale 6 with
      | undefined => TypeError
      | Str s => Returns (set scale 6 (Str (raiseHalfStep s)))
      end
    end
  end.

(** [tonicNameForSpelling] and [spelledScale] of the component: the scale
    of a circle position. *)
Definition tonicNameForSpelling (pos : Pos) (mode : Mode) (enhPref : EnhPref)
  : outcome jsstring :=
  let raw := match mode with major => pos_major pos | minor => pos_minor pos end in
  resolveEnharmonic raw (pos_acc pos) enhPref.

Definition spelledScale (pos : Pos) (mode : Mode) (enhPref : EnhPref)
  : outcome (list value) :=
  match tonicNameForSpelling pos mode enhPref with
  | TypeError => TypeError
  | Returns tonic => buildScaleFromKeyName tonic mode enhPref
  end.

(* ================================================================== *)
(** ** Chords *)

Record Chord : Type := { rn : value; tones : list value }.

(** [arr.map((r, i) => f(r, i))]. *)
Fixpoint mapi_from {B : Type} (f : value -> Z -> B) (arr : list value) (i : Z)
  : list B :=
  match arr with
  | [] => []
  | r :: t => f r i :: mapi_from f t (i + 1)
  end.

Definition diatonicTriads (scale : list value) (mode : Mode) : list Chord :=
  let rn :=
    match mode with
    | minor => [Str (js "i"); Str (js "ii°"); Str (js "III+"); Str (js "iv");
                Str (js "V"); Str (js "VI"); Str (js "vii°")]
    | major => [Str (js "I"); Str (js "ii"); Str (js "iii"); Str (js "IV");
                Str (js "V"); Str (js "vi"); Str (js "vii°")]
    end in
  mapi_from
    (fun r i =>
       {| rn := get rn i;
          tones := [r; get scale (Z.rem (i + 2) 7); get scale (Z.rem (i + 4) 7)] |})
    scale 0.

Definition diatonicSevenths (scale : list value) (mode : Mode) : list Chord :=
  let pc := fun i : Z => get scale (Z.rem i 7) in
  match mode with
  | major =>
    [ {| rn := Str (js "Imaj7");  tones := [pc 0; pc 2; pc 4; pc 6] |};
      {| rn := Str (js "ii7");    tones := [pc 1; pc 3; pc 5; pc 0] |};
      {| rn := Str (js "iii7");   tones := [pc 2; pc 4; pc 6; pc 1] |};
      {| rn := Str (js "IVmaj7"); tones := [pc 3; pc 5; pc 0; pc 2] |};
      {| rn := Str (js "V7");     tones := [pc 4; pc 6; pc 1; pc 3] |};
      {| rn := Str (js "vi7");    tones := [pc 5; pc 0; pc 2; pc 4] |};
      {| rn := Str (js "viiø7");  tones := [pc 6; pc 1; pc 3; pc 5] |} ]
  | minor =>
    [ {| rn := Str (js "i mMaj7");  tones := [pc 0; pc 2; pc 4; pc 6] |};
      {| rn := Str (js "iiø7");     tones := [pc 1; pc 3; pc 5; pc 0] |};
      {| rn := Str (js "III+maj7"); tones := [pc 2; pc 4; pc 6; pc 1] |};
      {| rn := Str (js "iv7");      tones := [pc 3; pc 5; pc 0; pc 2] |};
      {| rn := Str (js "V7");       tones := [pc 4; pc 6; pc 1; pc 3] |};
      {| rn := Str (js "VImaj7");   tones := [pc 5; pc 0; pc 2; pc 4] |};
      {| rn := Str (js "vii°7");    tones := [pc 6; pc 1; pc 3; pc 5] |} ]
  end.

(* ================================================================== *)
(** ** Tuning *)

(** [NAT_PC[L]] is [undefined] off the seven letters, and the sum is then
    [NaN]. *)
Definition spelledToMidi (note : jsstring) (oct : Z) : number :=
  let N := asciiNote (normalizeToken note) in
  let L := first N in
  let acc := slice1 N in
  let sigma := count_unit sharp acc - count_unit flat acc in
  match lookup NAT_PC (toStr L) with
  | None => NaN
  | Some nat_pc =>
    let pc := Z.rem (nat_pc + sigma + 120) 12 in
    Num (12 * (oct + 1) + pc)
  end.

(* ================================================================== *)
(** ** Definitions used by the statements *)

(** The six boundary tokens. *)
Definition boundaryTokens : list jsstring :=
  [js "a#"; js "bb"; js "d#"; js "eb"; js "g#"; js "ab"].

(** The labels as the specification lists them. *)
Definition triadLabels (mode : Mode) : list jsstring :=
  match mode with
  | major => [js "I"; js "ii"; js "iii"; js "IV"; js "V"; js "vi"; js "vii°"]
  | minor => [js "i"; js "ii°"; js "III+"; js "iv"; js "V"; js "VI"; js "vii°"]
  end.

Definition seventhLabels (mode : Mode) : list jsstring :=
  match mode with
  | major => [js "Imaj7"; js "ii7"; js "iii7"; js "IVmaj7"; js "V7"; js "vi7";
              js "viiø7"]
  | minor => [js "i mMaj7"; js "iiø7"; js "III+maj7"; js "iv7"; js "V7";
              js "VImaj7"; js "vii°7"]
  end.

(** The tones at the scale degrees [i + k] modulo 7, for the steps [k]. *)
Definition stacked (scale : list value) (steps : list nat) (i : nat)
  : list value :=
  map (fun k => nth ((i + k) mod 7) scale undefined) steps.

(** The chord of degree [i], with its label from the table. *)
Definition chordAt (labels : list jsstring) (scale : list value)
  (steps : list nat) (i : nat) : Chord :=
  {| rn := Str (nth i labels []); tones := stacked scale steps i |}.

(** A name without a slash. *)
Definition noSlash (s : jsstring) : Prop := includes (js "/") s = false.

(** A half that carries a sharp mark, as [resolveEnharmonic] tests it. *)
Definition hasSharpMark (s : jsstring) : bool := includes (js "#") (asciiNote s).

(** The candidate a preference selects. *)
Definition pick (pref : EnhPref) (posAcc : Z) (sharpName flatName : jsstring)
  : jsstring :=
  match pref with
  | sharps => sharpName
  | flats => flatName
  | auto => if 0 <=? posAcc then sharpName else flatName
  end.

(** An accidental run: sharp and flat marks only. *)
Definition marks (acc : jsstring) : Prop :=
  Forall (fun c => c = sharp \/ c = flat) acc.

(** The net offset of a run: its sharps minus its flats. *)
Definition offset (acc : jsstring) : Z :=
  count_unit sharp acc - count_unit flat acc.

(** The seven natural letters and the five accidental runs of a spelling. *)
Definition naturalLetters : list jsstring :=
  [js "A"; js "B"; js "C"; js "D"; js "E"; js "F"; js "G"].

Definition canonicalRuns : list jsstring :=
  [[]; js "#"; js "##"; js "b"; js "bb"].

(** A spelling whose run is one of the five, which never mixes the two
    marks. *)
Definition wellSpelled (s : jsstring) : Prop :=
  In (first s) (map Str naturalLetters) /\
  In (slice1 s) canonicalRuns /\
  ~ (In sharp (slice1 s) /\ In flat (slice1 s)).

Definition canonicalSpelling (s : jsstring) : bool :=
  existsb (strict_eqb (first s)) (map Str naturalLetters)
  && existsb (str_eqb (slice1 s)) canonicalRuns.

(** Every element of a returned scale is a string that passes [ok]. *)
Definition everyNote (ok : jsstring -> bool) (o : outcome (list value)) : bool :=
  match o with
  | TypeError => false
  | Returns scale =>
    forallb (fun v => match v with Str s => ok s | undefined => false end) scale
  end.

(** The letter after a natural letter, in the cycle C D E F G A B. *)
Definition nextLetter (L : jsstring) : jsstring :=
  match lookup [ (js "C", js "D"); (js "D", js "E"); (js "E", js "F");
                 (js "F", js "G"); (js "G", js "A"); (js "A", js "B");
                 (js "B", js "C") ] L with
  | Some M => M
  | None => L
  end.

Fixpoint cycleFrom (n : nat) (L : jsstring) : list jsstring :=
  match n with
  | O => []
  | S k => L :: cycleFrom k (nextLetter L)
  end.

(** The seven natural letters in cyclic order from [L]. *)
Definition naturalCycle (L : jsstring) : list jsstring := cycleFrom 7 L.

(** The letter of a spelling. *)
Definition letterOf (v : value) : jsstring :=
  match v with
  | Str (c :: _) => [c]
  | _ => []
  end.

(** The major scale in the words of the specification: the natural cycle
    from the tonic's letter with the signature of the tonic applied, and
    the normalised tonic at index 0. *)
Definition majorScaleSpec (tonicRaw : jsstring) : list value :=
  let tonic := normalizeToken tonicRaw in
  let sig := signatureForMajorName tonic in
  Str tonic
  :: tl (map (fun L => applySignature (Str L) sig)
             (naturalCycle (letterOf (Str tonic)))).

(** [raiseHalfStep] on an array element. *)
Definition raised (v : value) : value :=
  match v with
  | Str s => Str (raiseHalfStep s)
  | undefined => undefined
  end.

(** The harmonic minor scale in the words of the specification: the
    natural cycle from the letter of the minor tonic with the signature of
    the relative major applied, the minor tonic's own spelling at index 0,
    and the seventh degree raised. *)
Definition harmonicMinorSpec (tonicRaw : jsstring) (pref : EnhPref)
  : list value :=
  let tonic := normalizeMinorToken tonicRaw in
  let letter := toUpperCase (letterOf (Str tonic)) in
  let relMaj := relativeMajorFromMinor tonicRaw pref in
  let sig := signatureForMajorName relMaj in
  match map (fun L => applySignature (Str L) sig) (naturalCycle letter) with
  | [_; d1; d2; d3; d4; d5; d6] =>
    [Str (letter ++ slice1 tonic); d1; d2; d3; d4; d5; raised d6]
  | other => other
  end.

(** The tonic names the circle hands to the scale builder: the names of
    the twelve positions, resolved under each preference. *)
Definition catalogTonics (mode : Mode) : list jsstring :=
  flat_map
    (fun pos =>
       flat_map
         (fun pref =>
            match tonicNameForSpelling pos mode pref with
            | Returns name => [name]
            | TypeError => []
            end)
         [auto; sharps; flats])
    POSITIONS.

(* ================================================================== *)
(** ** Further definitions used by the statements *)

(** A string without a unit that starts an accidental glyph: the sharp
    sign, the flat sign, the high surrogate of the two double signs. *)
Definition glyphFree (s : jsstring) : Prop :=
  Forall (fun c => c <> 0x266F%N /\ c <> 0x266D%N /\ c <> 0xD834%N) s.

(** A string of ASCII units.  On such a string the case mappings of the
    model are those of ECMAScript. *)
Definition asciiOnly (s : jsstring) : Prop := Forall (fun c => (c < 0x80)%N) s.

(** A string that is empty or holds white space only. *)
Definition blank (s : jsstring) : Prop :=
  Forall (fun c => isWhiteSpace c = true) s.

(** [labelFor], [displayMain] and [displayRel] of the component, with the
    mode and the preference of its state as arguments. *)
Definition labelFor (enhPref : EnhPref) (raw : jsstring) (p : Pos)
  : outcome jsstring :=
  match resolveEnharmonic raw (pos_acc p) enhPref with
  | TypeError => TypeError
  | Returns name => Returns (pretty (normalizeToken name))
  end.

Definition displayMain (mode : Mode) (enhPref : EnhPref) (p : Pos)
  : outcome jsstring :=
  labelFor enhPref (match mode with major => pos_major p | minor => pos_minor p end) p.

Definition displayRel (mode : Mode) (enhPref : EnhPref) (p : Pos)
  : outcome jsstring :=
  labelFor enhPref (match mode with major => pos_minor p | minor => pos_major p end) p.

(** The two selections of the circle in minor mode whose relative major,
    as [relativeMajorFromMinor] chooses it, is not the major name of the
    position: G sharp minor under flats and B flat minor under auto. *)
Definition relativeKeyMismatch (i : nat) (pref : EnhPref) : bool :=
  match i, pref with
  | 5%nat, flats => true
  | 7%nat, auto => true
  | _, _ => false
  end.

(** The pitch class of a scale entry, from its MIDI number. *)
Definition pitchClass (v : value) : option Z :=
  match v with
  | undefined => None
  | Str s =>
    match spelledToMidi s 4 with
    | Num m => Some (m mod 12)
    | NaN => None
    end
  end.

(** The semitones from one entry up to another. *)
Definition interval (a b : value) : option Z :=
  match pitchClass a, pitchClass b with
  | Some x, Some y => Some ((y - x) mod 12)
  | _, _ => None
  end.

(** The semitones between the successive entries of a scale, the last
    step leading back to the first entry. *)
Fixpoint stepsFrom (first : value) (scale : list value) : list (option Z) :=
  match scale with
  | [] => []
  | a :: t =>
    match t with
    | [] => [interval a first]
    | b :: _ => interval a b :: stepsFrom first t
    end
  end.

Definition steps (scale : list value) : list (option Z) :=
  match scale with
  | [] => []
  | a :: _ => stepsFrom a scale
  end.

(** The letters of the entries whose run holds the mark [c]. *)
Definition markedWith (c : N) (scale : list value) : list jsstring :=
  map letterOf
    (filter (fun v => match v with
                      | Str s => existsb (N.eqb c) (slice1 s)
                      | undefined => false
                      end) scale).

(** The state the keyboard shortcuts of the component act on. *)
Record UiState : Type :=
  { st_idx : Z; st_mode : Mode; st_useSevenths : bool; st_enhPref : EnhPref }.

(** [onKey]: the state after a key press.  The updates are queued in the
    order of the tests.  The space key plays the tonic chord and leaves
    the state as it is.  No key outside ASCII has the lower case m or h,
    so that the case mapping of the model decides the two tests as
    ECMAScript does. *)
Definition onKey (key : jsstring) (st : UiState) : UiState :=
  let st :=
    if str_eqb key (js "ArrowRight")
    then {| st_idx := Z.rem (st_idx st + 1) 12; st_mode := st_mode st;
            st_useSevenths := st_useSevenths st; st_enhPref := st_enhPref st |}
    else st in
  let st :=
    if str_eqb key (js "ArrowLeft")
    then {| st_idx := Z.rem (st_idx st + 11) 12; st_mode := st_mode st;
            st_useSevenths := st_useSevenths st; st_enhPref := st_enhPref st |}
    else st in
  let st :=
    if str_eqb (toLowerCase key) (js "m")
    then {| st_idx := st_idx st;
            st_mode := match st_mode st with major => minor | minor => major end;
            st_useSevenths := st_useSevenths st; st_enhPref := st_enhPref st |}
    else st in
  let st :=
    if str_eqb key (js "7")
    then {| st_idx := st_idx st; st_mode := st_mode st;
            st_useSevenths := negb (st_useSevenths st);
            st_enhPref := st_enhPref st |}
    else st in
  if str_eqb (toLowerCase key) (js "h")
  then {| st_idx := st_idx st; st_mode := st_mode st;
          st_useSevenths := st_useSevenths st;
          st_enhPref := match st_enhPref st with
                        | auto => sharps
                        | sharps => flats
                        | flats => auto
                        end |}
  else st.

(* ================================================================== *)
(** * Properties *)

(** ** The literals *)

Example js_sharp_glyph : js "♯" = [0x266F%N].
Proof. reflexivity. Qed.
Example js_flat_glyph : js "♭" = [0x266D%N].
Proof. reflexivity. Qed.
Example js_double_sharp_glyph : js "𝄪" = [0xD834%N; 0xDD2A%N].
Proof. reflexivity. Qed.
Example js_double_flat_glyph : js "𝄫" = [0xD834%N; 0xDD2B%N].
Proof. reflexivity. Qed.
Example js_degree_sign : js "vii°" = [0x76%N; 0x69%N; 0x69%N; 0xB0%N].
Proof. reflexivity. Qed.
Example js_o_slash : js "ø7" = [0xF8%N; 0x37%N].
Proof. reflexivity. Qed.

(** ** Facts about the primitives *)

Lemma str_eqb_spec (a b : jsstring) : str_eqb a b = true <-> a = b.
Proof.
  revert b; induction a as [|x a IH]; intros [|y b]; simpl;
    try (split; (discriminate || reflexivity)).
  rewrite andb_true_iff, N.eqb_eq, IH.
  split; [intros [-> ->]; reflexivity | intros E; inversion E; auto].
Qed.

Lemma str_eqb_refl (a : jsstring) : str_eqb a a = true.
Proof. apply str_eqb_spec; reflexivity. Qed.

Lemma str_eqb_neq (a b : jsstring) : a <> b -> str_eqb a b = false.
Proof.
  intros H; destruct (str_eqb a b) eqn:E; [|reflexivity].
  apply str_eqb_spec in E; contradiction.
Qed.

(** A lookup that succeeds returns a value of the table. *)
Lemma lookup_In {A : Type} (obj : list (jsstring * A)) key v :
  lookup obj key = Some v -> In v (map snd obj).
Proof.
  induction obj as [|[k w] t IH]; simpl; [discriminate|].
  destruct (str_eqb k key); [intros E; inversion E; auto | auto].
Qed.

(** [includes] of a one-unit pattern is membership of that unit. *)
Lemma includes_unit (c : N) (s : jsstring) :
  includes [c] s = existsb (N.eqb c) s.
Proof.
  induction s as [|x s IH]; simpl; [reflexivity|].
  rewrite IH, andb_true_r; reflexivity.
Qed.

Lemma includes_unit_false (c : N) (s : jsstring) :
  includes [c] s = false <-> Forall (fun x => x <> c) s.
Proof.
  rewrite includes_unit; induction s as [|x s IH]; simpl.
  - split; auto.
  - rewrite orb_false_iff, IH, N.eqb_neq; split.
    + intros [H1 H2]; constructor; auto.
    + intros H; inversion H; subst; auto.
Qed.

(** A global replacement whose pattern starts with a unit the string does
    not hold leaves the string as it is. *)
Lemma replaceAll_absent (p : N) (pat rep s : jsstring) :
  Forall (fun x => x <> p) s -> replaceAll (p :: pat) rep s = s.
Proof.
  unfold replaceAll; induction 1 as [|x s Hx _ IH]; [reflexivity|].
  cbn [replaceAll_from startsWith].
  apply not_eq_sym, N.eqb_neq in Hx; rewrite Hx; simpl.
  f_equal; exact IH.
Qed.

(** A string without the separator is the only part of its split. *)
Lemma split_absent (sep : N) (s : jsstring) :
  Forall (fun x => x <> sep) s -> split sep s = (s, []).
Proof.
  induction 1 as [|x s Hx _ IH]; [reflexivity|].
  simpl; rewrite IH; apply N.eqb_neq in Hx; rewrite Hx; reflexivity.
Qed.

(** The first separator ends the first part. *)
Lemma split_app (sep : N) (x r : jsstring) :
  Forall (fun c => c <> sep) x ->
  split sep (x ++ sep :: r) = (x, fst (split sep r) :: snd (split sep r)).
Proof.
  induction 1 as [|c x Hc _ IH]; simpl.
  - destruct (split sep r); rewrite N.eqb_refl; reflexivity.
  - rewrite IH; apply N.eqb_neq in Hc; rewrite Hc; reflexivity.
Qed.

(** A string that holds the separator splits into two parts at least. *)
Lemma split_second (sep : N) (s : jsstring) :
  existsb (N.eqb sep) s = true ->
  exists p0 p1 ps, split sep s = (p0, p1 :: ps).
Proof.
  induction s as [|c s IH]; [discriminate|].
  simpl; destruct (split sep s) as [p ps] eqn:S.
  destruct (N.eqb c sep) eqn:C.
  - intros _; eexists _, _, _; reflexivity.
  - rewrite N.eqb_sym, C; simpl; intros E.
    destruct (IH E) as (p0 & p1 & ps' & F); inversion F; subst.
    eexists _, _, _; reflexivity.
Qed.

Lemma includes_unit_app (c : N) (x r : jsstring) :
  includes [c] (x ++ c :: r) = true.
Proof.
  rewrite includes_unit, existsb_app; simpl.
  rewrite N.eqb_refl; apply orb_true_r.
Qed.

(** [trim] leaves a string without white space as it is. *)
Lemma trimStart_head (c : N) (s : jsstring) :
  isWhiteSpace c = false -> trimStart (c :: s) = c :: s.
Proof. intros H; simpl; rewrite H; reflexivity. Qed.

Lemma trim_no_space (s : jsstring) :
  Forall (fun c => isWhiteSpace c = false) s -> trim s = s.
Proof.
  intros H.
  assert (T : forall t, Forall (fun c => isWhiteSpace c = false) t ->
                        trimStart t = t).
  { intros t Ht; destruct Ht; [reflexivity | apply trimStart_head; assumption]. }
  unfold trim, trimEnd; rewrite (T s H), T, rev_involutive; [reflexivity|].
  apply Forall_rev; assumption.
Qed.

Lemma filter_all {A : Type} (f : A -> bool) (l : list A) :
  Forall (fun x => f x = true) l -> filter f l = l.
Proof.
  induction 1 as [|x l Hx _ IH]; simpl; [reflexivity|].
  rewrite Hx, IH; reflexivity.
Qed.

(** ** Relative major of a minor tonic *)

(** The result on a given normalised token. *)
Lemma relativeMajorFromMinor_token (minorName nm : jsstring) (pref : EnhPref) :
  normalizeMinorToken minorName = nm ->
  relativeMajorFromMinor minorName pref =
  let flats_or (f s : jsstring) := match pref with flats => f | _ => s end in
  if str_eqb nm (js "a#") || str_eqb nm (js "bb")
  then flats_or (js "Db") (js "C#")
  else if str_eqb nm (js "d#") || str_eqb nm (js "eb")
  then flats_or (js "Gb") (js "F#")
  else if str_eqb nm (js "g#") || str_eqb nm (js "ab")
  then flats_or (js "Cb") (js "B")
  else match lookup MINOR_REL_MAJOR nm with Some M => M | None => js "C" end.
Proof. intros <-; reflexivity. Qed.

(** C5: the three boundary pairs of minor tonics are resolved by the
    preference alone (flats gives Db, Gb, Cb; auto and sharps give C#, F#,
    B), and every other minor tonic of the table maps to its table entry
    whatever the preference. *)
Theorem relativeMajorFromMinor_boundary_and_table
  (minorName : jsstring) (pref : EnhPref) :
  let nm := normalizeMinorToken minorName in
  (nm = js "a#" \/ nm = js "bb" ->
   relativeMajorFromMinor minorName pref =
   match pref with flats => js "Db" | _ => js "C#" end) /\
  (nm = js "d#" \/ nm = js "eb" ->
   relativeMajorFromMinor minorName pref =
   match pref with flats => js "Gb" | _ => js "F#" end) /\
  (nm = js "g#" \/ nm = js "ab" ->
   relativeMajorFromMinor minorName pref =
   match pref with flats => js "Cb" | _ => js "B" end) /\
  (forall M, In (nm, M) MINOR_REL_MAJOR -> ~ In nm boundaryTokens ->
             relativeMajorFromMinor minorName pref = M).
Proof.
  intros nm.
  pose proof (relativeMajorFromMinor_token minorName nm pref eq_refl) as R.
  clearbody nm.
  repeat split.
  - intros [-> | ->]; rewrite R; destruct pref; reflexivity.
  - intros [-> | ->]; rewrite R; destruct pref; reflexivity.
  - intros [-> | ->]; rewrite R; destruct pref; reflexivity.
  - intros M HM Hnb; rewrite R; clear R.
    simpl in HM.
    repeat (destruct HM as [HM | HM];
            [inversion HM; subst; clear HM;
             try (exfalso; apply Hnb; simpl; tauto);
             destruct pref; reflexivity |]).
    contradiction.
Qed.

Lemma relativeMajorFromMinor_boundary_and_table_witness :
  relativeMajorFromMinor (js "bb / a#") flats = js "Db" /\
  relativeMajorFromMinor (js "bb / a#") auto = js "C#" /\
  relativeMajorFromMinor (js "f#") flats = js "A".
Proof.
  pose proof (relativeMajorFromMinor_boundary_and_table (js "bb / a#") flats) as F.
  pose proof (relativeMajorFromMinor_boundary_and_table (js "bb / a#") auto) as A.
  pose proof (relativeMajorFromMinor_boundary_and_table (js "f#") flats) as T.
  cbv zeta in F, A, T.
  destruct F as (F & _), A as (A & _), T as (_ & _ & _ & T).
  split; [| split].
  - apply F; right; reflexivity.
  - apply A; right; reflexivity.
  - apply T.
    + vm_compute; tauto.
    + vm_compute; intuition discriminate.
Defined.

(** C10: [relativeMajorFromMinor] returns a major key name on every input
    (its result always has an entry in the signature table), and a token
    that is neither one of the six boundary tokens nor a key of the
    minor-to-major table falls back to C. *)
Theorem relativeMajorFromMinor_total_fallback
  (minorName : jsstring) (pref : EnhPref) :
  let nm := normalizeMinorToken minorName in
  lookup MAJOR_SIG_COUNTS (relativeMajorFromMinor minorName pref) <> None /\
  (~ In nm boundaryTokens -> lookup MINOR_REL_MAJOR nm = None ->
   relativeMajorFromMinor minorName pref = js "C").
Proof.
  intros nm.
  pose proof (relativeMajorFromMinor_token minorName nm pref eq_refl) as R.
  clearbody nm; cbv zeta in R; split.
  - rewrite R; clear R.
    destruct (str_eqb nm (js "a#") || str_eqb nm (js "bb"));
      [destruct pref; vm_compute; discriminate|].
    destruct (str_eqb nm (js "d#") || str_eqb nm (js "eb"));
      [destruct pref; vm_compute; discriminate|].
    destruct (str_eqb nm (js "g#") || str_eqb nm (js "ab"));
      [destruct pref; vm_compute; discriminate|].
    destruct (lookup MINOR_REL_MAJOR nm) as [M|] eqn:E;
      [| vm_compute; discriminate].
    apply lookup_In in E; simpl in E.
    repeat (destruct E as [E | E]; [subst M; vm_compute; discriminate |]).
    contradiction.
  - intros Hnb Hnone; rewrite R, Hnone; clear R.
    assert (N6 : forall t, In t boundaryTokens -> str_eqb nm t = false).
    { intros t Ht; apply str_eqb_neq; intros ->; exact (Hnb Ht). }
    rewrite !N6 by (simpl; tauto); reflexivity.
Qed.

Lemma relativeMajorFromMinor_total_fallback_witness :
  relativeMajorFromMinor (js "h") sharps = js "C".
Proof.
  pose proof (relativeMajorFromMinor_total_fallback (js "h") sharps) as H.
  cbv zeta in H; destruct H as [_ H]; apply H.
  - vm_compute; intuition discriminate.
  - reflexivity.
Defined.

(** ** Chords *)

(** C3: on a scale of seven notes, [diatonicTriads] returns the seven
    chords of degrees (i, i+2, i+4) mod 7 labelled I, ii, iii, IV, V, vi,
    vii° in major and i, ii°, III+, iv, V, VI, vii° in minor, and
    [diatonicSevenths] the seven chords of degrees (i, i+2, i+4, i+6) mod 7
    labelled Imaj7, ii7, iii7, IVmaj7, V7, vi7, viiø7 in major and i mMaj7,
    iiø7, III+maj7, iv7, V7, VImaj7, vii°7 in minor. *)
Theorem diatonic_chords_by_degree
  (s0 s1 s2 s3 s4 s5 s6 : value) (mode : Mode) :
  let scale := [s0; s1; s2; s3; s4; s5; s6] in
  diatonicTriads scale mode =
    map (chordAt (triadLabels mode) scale [0; 2; 4]%nat) (seq 0 7) /\
  diatonicSevenths scale mode =
    map (chordAt (seventhLabels mode) scale [0; 2; 4; 6]%nat) (seq 0 7) /\
  List.length (diatonicTriads scale mode) = 7%nat /\
  List.length (diatonicSevenths scale mode) = 7%nat.
Proof.
  destruct mode; repeat split; reflexivity.
Qed.

(** The triads of C major, as the specification's example spells them. *)
Example triads_C_major :
  option_map (fun scale => map tones (diatonicTriads scale major))
    (match buildScaleFromKeyName (js "C") major auto with
     | Returns scale => Some scale
     | TypeError => None
     end) =
  Some (map (map (fun s => Str s))
          [ [js "C"; js "E"; js "G"]; [js "D"; js "F"; js "A"];
            [js "E"; js "G"; js "B"]; [js "F"; js "A"; js "C"];
            [js "G"; js "B"; js "D"]; [js "A"; js "C"; js "E"];
            [js "B"; js "D"; js "F"] ]).
Proof. reflexivity. Qed.

(** ** Enharmonic resolution *)

Lemma resolveEnharmonic_two_parts (x y : jsstring) (posAcc : Z) (pref : EnhPref) :
  noSlash x -> noSlash y ->
  resolveEnharmonic (x ++ js "/" ++ y) posAcc pref =
  Returns (if hasSharpMark (trim x)
           then pick pref posAcc (trim x) (trim y)
           else pick pref posAcc (trim y) (trim x)).
Proof.
  unfold noSlash; change (js "/") with [slash]; intros Hx Hy.
  apply includes_unit_false in Hx, Hy.
  unfold resolveEnharmonic; change (js "/") with [slash].
  change (x ++ [slash] ++ y) with (x ++ slash :: y).
  rewrite includes_unit_app; simpl negb; cbv iota.
  rewrite (split_app slash x y Hx), (split_absent slash y Hy); simpl fst; simpl snd.
  unfold hasSharpMark, pick.
  destruct (includes (js "#") (asciiNote (trim x))), pref; reflexivity.
Qed.

(** C4: [resolveEnharmonic] returns a name without a slash unchanged; on
    two halves of which one carries a sharp mark, in either order around
    the slash, sharps selects the sharp-marked half, flats the other one,
    and auto the sharp-marked half exactly when the accidental count of
    the position is not negative. *)
Theorem resolveEnharmonic_by_mark :
  (forall raw posAcc pref,
      noSlash raw -> resolveEnharmonic raw posAcc pref = Returns raw) /\
  (forall x y posAcc pref,
      noSlash x -> noSlash y ->
      hasSharpMark (trim x) = true -> hasSharpMark (trim y) = false ->
      let chosen :=
        match pref with
        | sharps => trim x
        | flats => trim y
        | auto => if 0 <=? posAcc then trim x else trim y
        end in
      resolveEnharmonic (x ++ js "/" ++ y) posAcc pref = Returns chosen /\
      resolveEnharmonic (y ++ js "/" ++ x) posAcc pref = Returns chosen).
Proof.
  split.
  - intros raw posAcc pref H; unfold resolveEnharmonic, noSlash in *.
    rewrite H; reflexivity.
  - intros x y posAcc pref Hx Hy Sx Sy chosen; subst chosen.
    rewrite (resolveEnharmonic_two_parts x y), (resolveEnharmonic_two_parts y x)
      by assumption.
    rewrite Sx, Sy; unfold pick; destruct pref; split; reflexivity.
Qed.

Lemma resolveEnharmonic_by_mark_witness :
  resolveEnharmonic (js "G") 1 flats = Returns (js "G") /\
  (resolveEnharmonic (js "F# / Gb") 6 auto = Returns (js "F#") /\
   resolveEnharmonic (js " Gb/F# ") 6 auto = Returns (js "F#")) /\
  (resolveEnharmonic (js "C# / Db") (-5) auto = Returns (js "Db") /\
   resolveEnharmonic (js " Db/C# ") (-5) auto = Returns (js "Db")).
Proof.
  destruct resolveEnharmonic_by_mark as [I S].
  split; [| split].
  - apply (I (js "G") 1 flats); reflexivity.
  - apply (S (js "F# ") (js " Gb") 6 auto); reflexivity.
  - apply (S (js "C# ") (js " Db") (-5) auto); reflexivity.
Defined.

(** The names of the two spoke positions, as the catalog orders them. *)
Example resolveEnharmonic_spokes :
  map (fun pref => resolveEnharmonic (js "F# / Gb") 6 pref) [auto; sharps; flats]
  = [Returns (js "F#"); Returns (js "F#"); Returns (js "Gb")] /\
  map (fun pref => resolveEnharmonic (js "Db / C#") (-5) pref) [auto; sharps; flats]
  = [Returns (js "Db"); Returns (js "C#"); Returns (js "Db")] /\
  map (fun pref => resolveEnharmonic (js "d# / eb") 6 pref) [auto; sharps; flats]
  = [Returns (js "d#"); Returns (js "d#"); Returns (js "eb")] /\
  map (fun pref => resolveEnharmonic (js "bb / a#") (-5) pref) [auto; sharps; flats]
  = [Returns (js "bb"); Returns (js "a#"); Returns (js "bb")].
Proof. repeat split. Qed.

(** On a name that holds a slash the split has a second part: the call
    always returns. *)
Lemma resolveEnharmonic_returns (raw : jsstring) (posAcc : Z) (pref : EnhPref) :
  exists name, resolveEnharmonic raw posAcc pref = Returns name.
Proof.
  unfold resolveEnharmonic; change (js "/") with [slash].
  destruct (includes [slash] raw) eqn:E; simpl; [| eexists; reflexivity].
  rewrite includes_unit in E.
  destruct (split_second slash raw E) as (p0 & p1 & ps & ->).
  destruct pref; eexists; reflexivity.
Qed.

(** ** Tokens that are already normal *)

Lemma isWhiteSpace_graphic (c : N) :
  (0x21 <= c <= 0x7E)%N -> isWhiteSpace c = false.
Proof.
  intros H; unfold isWhiteSpace; cbn [existsb].
  repeat match goal with
         | |- context [N.eqb c ?k] =>
           replace (N.eqb c k) with false by (symmetry; apply N.eqb_neq; lia)
         end.
  replace (N.leb 0x2000 c) with false by (symmetry; apply N.leb_gt; lia).
  reflexivity.
Qed.

Lemma asciiNote_plain (s : jsstring) :
  Forall (fun c => (c < 0x80)%N) s -> asciiNote s = s.
Proof.
  intros H; unfold asciiNote.
  change (js "♯") with [0x266F%N]; change (js "♭") with [0x266D%N].
  change (js "𝄪") with [0xD834%N; 0xDD2A%N].
  change (js "𝄫") with [0xD834%N; 0xDD2B%N].
  assert (A : forall p, (0x80 <= p)%N -> Forall (fun x => x <> p) s).
  { intros p Hp; eapply Forall_impl; [| exact H]; cbv beta; intros; lia. }
  rewrite (replaceAll_absent 0x266F%N _ _ s) by (apply A; lia).
  rewrite (replaceAll_absent 0xD834%N _ _ s) by (apply A; lia).
  rewrite (replaceAll_absent 0x266D%N _ _ s) by (apply A; lia).
  rewrite (replaceAll_absent 0xD834%N _ _ s) by (apply A; lia).
  reflexivity.
Qed.

Lemma marks_units (acc : jsstring) (P : N -> Prop) :
  P sharp -> P flat -> marks acc -> Forall P acc.
Proof.
  intros Hs Hf H; eapply Forall_impl; [| exact H].
  cbv beta; intros c [-> | ->]; assumption.
Qed.

(** An upper-case letter followed by marks is its own normal form. *)
Lemma normalizeToken_normal (L : N) (acc : jsstring) :
  (0x41 <= L <= 0x5A)%N -> marks acc ->
  normalizeToken (L :: acc) = L :: acc /\ asciiNote (L :: acc) = L :: acc.
Proof.
  intros HL Hacc.
  assert (A : asciiNote (L :: acc) = L :: acc).
  { apply asciiNote_plain; constructor; [lia|].
    apply marks_units; [reflexivity | reflexivity | assumption]. }
  split; [| exact A].
  unfold normalizeToken; rewrite A.
  rewrite split_absent; cbn [fst].
  2:{ constructor; [unfold slash; lia|].
      apply marks_units; [discriminate | discriminate | assumption]. }
  rewrite trim_no_space.
  2:{ constructor; [apply isWhiteSpace_graphic; lia|].
      apply marks_units; [reflexivity | reflexivity | assumption]. }
  cbn [first slice1 tl toUpperCase map].
  unfold keepMarks; rewrite filter_all.
  2:{ eapply Forall_impl; [| exact Hacc]; cbv beta; intros c [-> | ->]; reflexivity. }
  unfold upper_unit.
  replace (N.leb 0x61 L) with false by (symmetry; apply N.leb_gt; lia).
  reflexivity.
Qed.

(** The seven letters of [NAT_PC]. *)
Lemma NAT_PC_letters (L : N) (p : Z) :
  lookup NAT_PC [L] = Some p ->
  (0x41 <= L <= 0x5A)%N /\ 0 <= p <= 11.
Proof.
  change NAT_PC with
    [ ([0x43%N], 0); ([0x44%N], 2); ([0x45%N], 4); ([0x46%N], 5);
      ([0x47%N], 7); ([0x41%N], 9); ([0x42%N], 11) ].
  cbn [lookup str_eqb]; rewrite !andb_true_r.
  repeat match goal with
         | |- context [N.eqb ?k L] =>
           destruct (N.eqb_spec k L);
             [subst L; intros E; inversion E; subst; split; lia |]
         end.
  discriminate.
Qed.

(** ** Tuning *)

Lemma spelledToMidi_spelling (L : N) (acc : jsstring) (p oct : Z) :
  lookup NAT_PC [L] = Some p -> marks acc ->
  spelledToMidi (L :: acc) oct =
  Num (12 * (oct + 1) + Z.rem (p + offset acc + 120) 12).
Proof.
  intros HL Hacc.
  destruct (NAT_PC_letters L p HL) as [RL _].
  destruct (normalizeToken_normal L acc RL Hacc) as [E1 E2].
  unfold spelledToMidi; rewrite E1, E2.
  cbn [first toStr slice1 tl]; rewrite HL; reflexivity.
Qed.

(** C6: on a letter of the seven followed by sharp and flat marks, with at
    most 120 flats more than sharps (the range the [+ 120] of the source
    keeps non-negative), [spelledToMidi] is 12 * (octave + 1) plus the
    natural pitch class plus sharps minus flats, modulo 12; two such
    spellings of one pitch class have one MIDI number at a given octave,
    and C#4 and Db4 are both 61. *)
Theorem spelledToMidi_enharmonic :
  (forall L acc p oct,
      lookup NAT_PC [L] = Some p -> marks acc ->
      count_unit flat acc <= 120 + count_unit sharp acc ->
      spelledToMidi (L :: acc) oct =
      Num (12 * (oct + 1)
           + (p + count_unit sharp acc - count_unit flat acc) mod 12)) /\
  (forall L1 acc1 p1 L2 acc2 p2 oct,
      lookup NAT_PC [L1] = Some p1 -> marks acc1 ->
      count_unit flat acc1 <= 120 + count_unit sharp acc1 ->
      lookup NAT_PC [L2] = Some p2 -> marks acc2 ->
      count_unit flat acc2 <= 120 + count_unit sharp acc2 ->
      (p1 + offset acc1) mod 12 = (p2 + offset acc2) mod 12 ->
      spelledToMidi (L1 :: acc1) oct = spelledToMidi (L2 :: acc2) oct) /\
  spelledToMidi (js "C#") 4 = Num 61 /\
  spelledToMidi (js "Db") 4 = Num 61.
Proof.
  assert (F : forall L acc p oct,
             lookup NAT_PC [L] = Some p -> marks acc ->
             count_unit flat acc <= 120 + count_unit sharp acc ->
             spelledToMidi (L :: acc) oct =
             Num (12 * (oct + 1) + (p + offset acc) mod 12)).
  { intros L acc p oct HL Hacc Hb.
    rewrite (spelledToMidi_spelling L acc p oct HL Hacc).
    destruct (NAT_PC_letters L p HL) as [_ Rp].
    unfold offset in *.
    rewrite Z.rem_mod_nonneg by lia.
    replace (p + (count_unit sharp acc - count_unit flat acc) + 120)
      with (p + (count_unit sharp acc - count_unit flat acc) + 10 * 12) by lia.
    rewrite Z_mod_plus_full; reflexivity. }
  split; [| split; [| split; reflexivity]].
  - intros L acc p oct HL Hacc Hb; rewrite (F L acc p oct HL Hacc Hb).
    unfold offset; do 3 f_equal; lia.
  - intros L1 acc1 p1 L2 acc2 p2 oct H1 M1 B1 H2 M2 B2 E.
    rewrite (F _ _ _ oct H1 M1 B1), (F _ _ _ oct H2 M2 B2), E; reflexivity.
Qed.

Lemma spelledToMidi_enharmonic_witness :
  spelledToMidi (js "E##") 3 = Num (12 * (3 + 1) + (4 + 2 - 0) mod 12) /\
  spelledToMidi (js "E##") 3 = spelledToMidi (js "Gb") 3.
Proof.
  destruct spelledToMidi_enharmonic as (F & I & _).
  split.
  - apply (F 0x45%N (js "##") 4 3).
    + reflexivity.
    + repeat constructor.
    + vm_compute; discriminate.
  - apply (I 0x45%N (js "##") 4 0x47%N (js "b") 7 3);
      try reflexivity; try (vm_compute; discriminate).
    + constructor; [left | constructor; [left | constructor]]; reflexivity.
    + constructor; [right | constructor]; reflexivity.
Defined.

(** Beyond that range the remainder of the source is negative: C with 121
    flats sounds the pitch class of B, and is mapped twelve semitones
    below B. *)
Remark spelledToMidi_past_the_guard :
  spelledToMidi (js "C" ++ repeat flat 121) 4 = Num 59 /\
  spelledToMidi (js "B") 4 = Num 71.
Proof. split; vm_compute; reflexivity. Qed.

(** ** Rendering *)

(** C9: for every canonical spelling, a letter A to G with one of the runs
    '', '#', '##', 'b', 'bb', normalising the rendered glyphs gives the
    spelling back, so that rendering, normalising and rendering again
    reproduces the rendering of the spelling. *)
Theorem pretty_normalizeToken_roundtrip (L run : jsstring) :
  In L naturalLetters -> In run canonicalRuns ->
  normalizeToken (pretty (L ++ run)) = L ++ run /\
  pretty (normalizeToken (pretty (L ++ run))) = pretty (L ++ run).
Proof.
  intros HL Hrun; simpl in HL, Hrun.
  repeat (destruct HL as [HL | HL]; [subst L |]); try contradiction;
    repeat (destruct Hrun as [Hrun | Hrun]; [subst run |]); try contradiction;
    split; vm_compute; reflexivity.
Qed.

Lemma pretty_normalizeToken_roundtrip_witness :
  normalizeToken (pretty (js "B" ++ js "bb")) = js "B" ++ js "bb" /\
  pretty (normalizeToken (pretty (js "B" ++ js "bb"))) = pretty (js "B" ++ js "bb").
Proof.
  apply (pretty_normalizeToken_roundtrip (js "B") (js "bb"));
    vm_compute; tauto.
Defined.

(** The glyphs of the five runs. *)
Example pretty_runs :
  map (fun run => pretty (js "B" ++ run)) canonicalRuns =
  [js "B"; js "B♯"; js "B𝄪"; js "B♭"; js "B𝄫"].
Proof. reflexivity. Qed.

(** ** The scale builder *)

Ltac distinct_letters :=
  vm_compute; repeat constructor; simpl; intuition discriminate.

(** C1: for every key name of the signature table and every preference,
    the major scale has seven entries; their letters are the seven natural
    letters, all distinct, in cyclic order from the letter of the tonic;
    each entry is its letter with the signature of the tonic applied, and
    index 0 is the normalised tonic.  C major is C D E F G A B under every
    preference. *)
Theorem buildScale_major_signature_table :
  (forall tonic n pref,
      In (tonic, n) MAJOR_SIG_COUNTS ->
      buildScaleFromKeyName tonic major pref = Returns (majorScaleSpec tonic) /\
      List.length (majorScaleSpec tonic) = 7%nat /\
      map letterOf (majorScaleSpec tonic) = naturalCycle (letterOf (Str tonic)) /\
      NoDup (map letterOf (majorScaleSpec tonic)) /\
      incl (map letterOf (majorScaleSpec tonic)) naturalLetters) /\
  (forall pref,
      buildScaleFromKeyName (js "C") major pref =
      Returns [Str (js "C"); Str (js "D"); Str (js "E"); Str (js "F");
               Str (js "G"); Str (js "A"); Str (js "B")]).
Proof.
  split; [| intros pref; destruct pref; reflexivity].
  intros tonic n pref H; simpl in H.
  repeat (destruct H as [H | H];
          [inversion H; subst tonic n; clear H;
           split; [destruct pref; vm_compute; reflexivity |];
           split; [vm_compute; reflexivity |];
           split; [vm_compute; reflexivity |];
           split; [distinct_letters |];
           vm_compute; intros L HL; tauto |]).
  contradiction.
Qed.

Lemma buildScale_major_signature_table_witness :
  buildScaleFromKeyName (js "Gb") major flats =
  Returns [Str (js "Gb"); Str (js "Ab"); Str (js "Bb"); Str (js "Cb");
           Str (js "Db"); Str (js "Eb"); Str (js "F")].
Proof.
  destruct buildScale_major_signature_table as [T _].
  destruct (T (js "Gb") (-6) flats) as [E _].
  - vm_compute; tauto.
  - rewrite E; reflexivity.
Defined.

(** The resolved minor tonics of the circle. *)
Example catalogTonics_minor :
  catalogTonics minor =
  map js [ "a"; "a"; "a"; "e"; "e"; "e"; "b"; "b"; "b"; "f#"; "f#"; "f#";
           "c#"; "c#"; "c#"; "g#"; "g#"; "g#"; "d#"; "d#"; "eb";
           "bb"; "a#"; "bb"; "f"; "f"; "f"; "c"; "c"; "c"; "g"; "g"; "g";
           "d"; "d"; "d" ]%string.
Proof. reflexivity. Qed.

(** C2: for every minor tonic of the circle, resolved or as the catalog
    writes it, and every preference, the minor scale is the natural cycle from the letter of the normalised
    minor tonic with the signature of the relative major applied, the
    tonic's own spelling at index 0 and the seventh degree raised: the
    scale before the raise differs from the result at index 6 only.
    A harmonic minor under auto is A B C D E F G#. *)
Theorem buildScale_minor_catalog :
  (forall tonic pref,
      In tonic (catalogTonics minor ++ map pos_minor POSITIONS) ->
      buildScaleFromKeyName tonic minor pref =
        Returns (harmonicMinorSpec tonic pref) /\
      exists before,
        minorScaleBeforeRaise tonic pref = Returns before /\
        List.length before = 7%nat /\
        firstn 6 (harmonicMinorSpec tonic pref) = firstn 6 before /\
        get (harmonicMinorSpec tonic pref) 6 = raised (get before 6) /\
        get before 0 =
          Str (toUpperCase (letterOf (Str (normalizeMinorToken tonic)))
               ++ slice1 (normalizeMinorToken tonic))) /\
  buildScaleFromKeyName (js "a") minor auto =
  Returns [Str (js "A"); Str (js "B"); Str (js "C"); Str (js "D");
           Str (js "E"); Str (js "F"); Str (js "G#")].
Proof.
  split; [| reflexivity].
  intros tonic pref H; vm_compute in H.
  repeat (destruct H as [H | H];
          [subst tonic; destruct pref;
           (split; [vm_compute; reflexivity |]);
           eexists; (split; [reflexivity |]);
           repeat split; vm_compute; reflexivity |]).
  contradiction.
Qed.

Lemma buildScale_minor_catalog_witness :
  buildScaleFromKeyName (js "eb") minor flats =
  Returns [Str (js "Eb"); Str (js "F"); Str (js "Gb"); Str (js "Ab");
           Str (js "Bb"); Str (js "Cb"); Str (js "D")].
Proof.
  destruct buildScale_minor_catalog as [T _].
  destruct (T (js "eb") flats) as [E _].
  - vm_compute; tauto.
  - rewrite E; reflexivity.
Defined.

(** *** The walk never leaves the letters after index 0 *)

Lemma normalizeMinorToken_first (n : jsstring) :
  exists c, first (normalizeMinorToken n) = Str [c].
Proof.
  unfold normalizeMinorToken; change (js "a") with [0x61%N].
  destruct (first (trim (fst (split slash (asciiNote n))))) as [| [|c t]] eqn:E.
  - eexists; reflexivity.
  - destruct (trim (fst (split slash (asciiNote n)))); discriminate.
  - eexists; reflexivity.
Qed.

Lemma normalizeToken_first (n : jsstring) :
  exists c, first (normalizeToken n) = Str [c].
Proof.
  unfold normalizeToken; change (js "C") with [0x43%N].
  destruct n as [|x n]; [eexists; reflexivity|].
  destruct (first (trim (fst (split slash (asciiNote (x :: n)))))) as [| [|c t]] eqn:E.
  - eexists; reflexivity.
  - destruct (trim (fst (split slash (asciiNote (x :: n))))); discriminate.
  - eexists; reflexivity.
Qed.

Lemma indexOf_LETTERS (x : value) :
  In (indexOf LETTERS x) [-1; 0; 1; 2; 3; 4; 5; 6].
Proof.
  unfold indexOf, LETTERS; cbn [indexOf_from].
  repeat match goal with
         | |- context [strict_eqb ?a x] => destruct (strict_eqb a x)
         end; simpl; tauto.
Qed.

(** What [applySignature] returns on a letter: the letter, bare or with
    one mark. *)
Lemma applySignature_letter (L : jsstring) (sig : Sig) :
  applySignature (Str L) sig = Str L \/
  applySignature (Str L) sig = Str (L ++ js "#") \/
  applySignature (Str L) sig = Str (L ++ js "b").
Proof.
  unfold applySignature; cbn [toStr].
  destruct (is_zero (sig_count sig)), (sig_type sig), (has (sig_set sig) (Str L));
    tauto.
Qed.

(** After the tonic is stored at index 0, the array holds the signed
    letters of the cycle at the indices 1 to 6, whatever the start. *)
Lemma walk_signed (start : Z) (sig : Sig) (v : value) :
  In start [-1; 0; 1; 2; 3; 4; 5; 6] ->
  exists L1 L2 L3 L4 L5 L6,
    incl [L1; L2; L3; L4; L5; L6] naturalLetters /\
    set (map (fun L => applySignature L sig) (walk start)) 0 v =
    v :: map (fun L => applySignature (Str L) sig) [L1; L2; L3; L4; L5; L6].
Proof.
  intros H; simpl in H.
  repeat (destruct H as [H | H];
          [subst start; eexists _, _, _, _, _, _;
           split; [| reflexivity]; vm_compute; tauto |]).
  contradiction.
Qed.

(** C8: the spelling handed to [raiseHalfStep] is never a double sharp.
    For every tonic and preference the minor branch returns; the entry at
    index 6 before the raise is a natural letter, bare or with the one
    mark [applySignature] adds, and the result is that scale with the
    raised entry at index 6. *)
Theorem raiseHalfStep_argument_single_mark
  (tonicRaw : jsstring) (enhPref : EnhPref) :
  exists before L s,
    minorScaleBeforeRaise tonicRaw enhPref = Returns before /\
    get before 6 = Str s /\
    In L naturalLetters /\
    (s = L \/ s = L ++ js "#" \/ s = L ++ js "b") /\
    (List.length (slice1 s) <= 1)%nat /\
    slice1 s <> js "##" /\
    buildScaleFromKeyName tonicRaw minor enhPref =
    Returns (set before 6 (Str (raiseHalfStep s))).
Proof.
  unfold buildScaleFromKeyName, minorScaleBeforeRaise.
  destruct (normalizeMinorToken_first tonicRaw) as [c ->].
  set (sig := signatureForMajorName _).
  set (v := Str (toUpperCase [c] ++ _)).
  destruct (walk_signed _ sig v (indexOf_LETTERS (Str (toUpperCase [c]))))
    as (L1 & L2 & L3 & L4 & L5 & L6 & HL & ->).
  assert (H6 : In L6 naturalLetters) by (apply HL; simpl; tauto).
  assert (shape : exists c6, L6 = [c6]).
  { simpl in H6; repeat (destruct H6 as [H6 | H6]; [eexists; symmetry; exact H6 |]).
    contradiction. }
  destruct shape as [c6 E6].
  assert (G : get (v :: map (fun L => applySignature (Str L) sig)
                             [L1; L2; L3; L4; L5; L6]) 6
              = applySignature (Str L6) sig) by reflexivity.
  rewrite G.
  destruct (applySignature_letter L6 sig) as [E | [E | E]]; rewrite E;
    eexists _, L6, _; (split; [reflexivity |]);
    (split; [rewrite G; exact E |]);
    (split; [exact H6 |]); subst L6; repeat split; simpl;
    auto; try lia; discriminate.
Qed.

(** The scale builder returns on every input, seven strings. *)
Lemma buildScaleFromKeyName_returns
  (tonicRaw : jsstring) (mode : Mode) (enhPref : EnhPref) :
  exists s0 s1 s2 s3 s4 s5 s6,
    buildScaleFromKeyName tonicRaw mode enhPref =
    Returns [Str s0; Str s1; Str s2; Str s3; Str s4; Str s5; Str s6].
Proof.
  assert (A : forall L sig, exists s, applySignature (Str L) sig = Str s).
  { intros L sig; destruct (applySignature_letter L sig) as [E | [E | E]];
      rewrite E; eexists; reflexivity. }
  destruct mode.
  - unfold buildScaleFromKeyName.
    set (sig := signatureForMajorName _).
    destruct (walk_signed _ sig (Str (normalizeToken tonicRaw))
                (indexOf_LETTERS (first (normalizeToken tonicRaw))))
      as (L1 & L2 & L3 & L4 & L5 & L6 & _ & ->).
    cbn [map].
    destruct (A L1 sig) as [? ->], (A L2 sig) as [? ->], (A L3 sig) as [? ->],
      (A L4 sig) as [? ->], (A L5 sig) as [? ->], (A L6 sig) as [? ->].
    eexists _, _, _, _, _, _, _; reflexivity.
  - unfold buildScaleFromKeyName, minorScaleBeforeRaise.
    destruct (normalizeMinorToken_first tonicRaw) as [c ->].
    set (sig := signatureForMajorName _).
    set (v := Str (toUpperCase [c] ++ _)).
    destruct (walk_signed _ sig v (indexOf_LETTERS (Str (toUpperCase [c]))))
      as (L1 & L2 & L3 & L4 & L5 & L6 & _ & ->).
    cbn [map].
    destruct (A L1 sig) as [? ->], (A L2 sig) as [? ->], (A L3 sig) as [? ->],
      (A L4 sig) as [? ->], (A L5 sig) as [? ->], (A L6 sig) as [? ->].
    subst v; eexists _, _, _, _, _, _, _; reflexivity.
Qed.

(** ** Homogeneous accidental runs *)

Lemma strict_eqb_eq (a b : value) : strict_eqb a b = true -> a = b.
Proof.
  destruct a, b; simpl; try discriminate; [reflexivity|].
  intros E; apply str_eqb_spec in E; subst; reflexivity.
Qed.

Lemma canonicalRuns_not_mixed (run : jsstring) :
  In run canonicalRuns -> ~ (In sharp run /\ In flat run).
Proof.
  intros H; simpl in H.
  repeat (destruct H as [H | H]; [subst run; vm_compute; intuition discriminate |]).
  contradiction.
Qed.

Lemma canonicalSpelling_sound (s : jsstring) :
  canonicalSpelling s = true -> wellSpelled s.
Proof.
  unfold canonicalSpelling, wellSpelled.
  rewrite andb_true_iff, !existsb_exists.
  intros [(v & Hv & Ev) (run & Hrun & Erun)].
  apply strict_eqb_eq in Ev; apply str_eqb_spec in Erun; subst v.
  rewrite Erun; split; [exact Hv | split; [exact Hrun |]].
  apply canonicalRuns_not_mixed; exact Hrun.
Qed.

Lemma everyNote_sound (o : outcome (list value)) :
  everyNote canonicalSpelling o = true ->
  exists scale,
    o = Returns scale /\
    Forall (fun v => exists s, v = Str s /\ wellSpelled s) scale.
Proof.
  destruct o as [scale |]; [| discriminate]; simpl; intros H.
  exists scale; split; [reflexivity |].
  apply Forall_forall; intros v Hv.
  rewrite forallb_forall in H; specialize (H v Hv).
  destruct v as [| s]; [discriminate |].
  exists s; split; [reflexivity | apply canonicalSpelling_sound; exact H].
Qed.

(** C7: no spelling the engine produces mixes sharp and flat marks.  On a
    natural letter [applySignature] returns, under any signature, a
    spelling whose run is one of '', '#', '##', 'b', 'bb', and so does
    [raiseHalfStep] on that spelling; every element of the scale of every
    circle position, in either mode, resolved and built under any
    preferences, is such a spelling. *)
Theorem spellings_have_homogeneous_runs :
  (forall L sig,
      In L naturalLetters ->
      exists s,
        applySignature (Str L) sig = Str s /\
        wellSpelled s /\ wellSpelled (raiseHalfStep s)) /\
  (forall pos mode resolvedWith pref tonic,
      In pos POSITIONS ->
      tonicNameForSpelling pos mode resolvedWith = Returns tonic ->
      exists scale,
        buildScaleFromKeyName tonic mode pref = Returns scale /\
        Forall (fun v => exists s, v = Str s /\ wellSpelled s) scale).
Proof.
  split.
  - intros L sig HL.
    destruct (applySignature_letter L sig) as [E | [E | E]]; rewrite E;
      eexists; (split; [reflexivity |]);
      simpl in HL;
      repeat (destruct HL as [HL | HL];
              [subst L; split; apply canonicalSpelling_sound; reflexivity |]);
      contradiction.
  - intros pos mode resolvedWith pref tonic Hpos HT.
    apply everyNote_sound.
    simpl in Hpos.
    repeat (destruct Hpos as [Hpos | Hpos];
            [subst pos; destruct mode, resolvedWith;
             vm_compute in HT; inversion HT; subst tonic;
             destruct pref; vm_compute; reflexivity |]).
    contradiction.
Qed.

Lemma spellings_have_homogeneous_runs_witness :
  (exists s,
      applySignature (Str (js "F")) (signatureForMajorName (js "G")) = Str s /\
      wellSpelled s /\ wellSpelled (raiseHalfStep s)) /\
  (exists scale,
      buildScaleFromKeyName (js "bb") minor auto = Returns scale /\
      Forall (fun v => exists s, v = Str s /\ wellSpelled s) scale).
Proof.
  destruct spellings_have_homogeneous_runs as [A B].
  split.
  - apply (A (js "F")); vm_compute; tauto.
  - apply (B {| pos_major := js "Db / C#"; pos_minor := js "bb / a#";
                pos_acc := -5 |} minor auto auto (js "bb")).
    + vm_compute; tauto.
    + reflexivity.
Defined.

(** The scale of B flat minor under auto: the signature is the one of C
    sharp major. *)
Example scale_bb_minor_auto :
  buildScaleFromKeyName (js "bb") minor auto =
  Returns [Str (js "Bb"); Str (js "C#"); Str (js "D#"); Str (js "E#");
           Str (js "F#"); Str (js "G#"); Str (js "A##")].
Proof. reflexivity. Qed.

(* ================================================================== *)
(** * Further properties of the code *)

(** ** Rendering and its inverse *)

Lemma replaceAll_miss (pat rep : jsstring) (c : N) (s : jsstring) :
  startsWith pat (c :: s) = false ->
  replaceAll pat rep (c :: s) = c :: replaceAll pat rep s.
Proof. intros H; unfold replaceAll; cbn [replaceAll_from]; rewrite H; reflexivity. Qed.

Lemma replaceAll_miss_head (p : N) (pat rep : jsstring) (c : N) (s : jsstring) :
  c <> p -> replaceAll (p :: pat) rep (c :: s) = c :: replaceAll (p :: pat) rep s.
Proof.
  intros H; apply replaceAll_miss; cbn [startsWith].
  apply not_eq_sym, N.eqb_neq in H; rewrite H; reflexivity.
Qed.

Lemma replaceAll_unit_hit (p : N) (rep s : jsstring) :
  replaceAll [p] rep (p :: s) = rep ++ replaceAll [p] rep s.
Proof.
  unfold replaceAll; cbn [replaceAll_from startsWith List.length pred].
  rewrite N.eqb_refl; reflexivity.
Qed.

Lemma replaceAll_pair_hit (p q : N) (rep s : jsstring) :
  replaceAll [p; q] rep (p :: q :: s) = rep ++ replaceAll [p; q] rep s.
Proof.
  unfold replaceAll; cbn [replaceAll_from startsWith List.length pred].
  rewrite !N.eqb_refl; reflexivity.
Qed.

Lemma replaceAll_pair_miss (p q : N) (rep : jsstring) (s : jsstring) :
  startsWith [q] s = false ->
  replaceAll [p; q] rep (p :: s) = p :: replaceAll [p; q] rep s.
Proof.
  intros H; apply replaceAll_miss.
  destruct s as [|c s]; cbn [startsWith] in *; [apply andb_false_r|].
  rewrite H; apply andb_false_r.
Qed.

(** The first unit of a global replacement, when the string does not
    start with [x] and the replacement, not empty, does not either. *)
Lemma replaceAll_head (pat rep s : jsstring) (x : N) :
  rep <> [] -> startsWith [x] rep = false -> startsWith [x] s = false ->
  startsWith [x] (replaceAll pat rep s) = false.
Proof.
  intros Hne Hrep Hs; destruct s as [|c s]; [reflexivity|].
  unfold replaceAll; cbn [replaceAll_from].
  destruct (startsWith pat (c :: s)); [| exact Hs].
  destruct rep as [|r rep]; [contradiction | exact Hrep].
Qed.

Lemma pretty_passes (n : jsstring) :
  pretty n =
  replaceAll [flat] [0x266D%N]
    (replaceAll [sharp] [0x266F%N]
       (replaceAll [flat; flat] [0xD834%N; 0xDD2B%N]
          (replaceAll [sharp; sharp] [0xD834%N; 0xDD2A%N] n))).
Proof. reflexivity. Qed.

Lemma asciiNote_passes (n : jsstring) :
  asciiNote n =
  replaceAll [0xD834%N; 0xDD2B%N] [flat; flat]
    (replaceAll [0x266D%N] [flat]
       (replaceAll [0xD834%N; 0xDD2A%N] [sharp; sharp]
          (replaceAll [0x266F%N] [sharp] n))).
Proof. reflexivity. Qed.

(** How [pretty] reads the head of a string. *)
Lemma pretty_other (c : N) (s : jsstring) :
  c <> sharp -> c <> flat -> pretty (c :: s) = c :: pretty s.
Proof.
  intros Hs Hf; rewrite !pretty_passes.
  rewrite !replaceAll_miss_head by assumption; reflexivity.
Qed.

Lemma pretty_double_sharp (s : jsstring) :
  pretty (sharp :: sharp :: s) = 0xD834%N :: 0xDD2A%N :: pretty s.
Proof.
  rewrite !pretty_passes, replaceAll_pair_hit; cbn [app].
  rewrite !replaceAll_miss_head by discriminate; reflexivity.
Qed.

Lemma pretty_single_sharp (s : jsstring) :
  startsWith [sharp] s = false ->
  pretty (sharp :: s) = 0x266F%N :: pretty s.
Proof.
  intros H; rewrite !pretty_passes, replaceAll_pair_miss by exact H.
  rewrite (replaceAll_miss_head flat) by discriminate.
  rewrite replaceAll_unit_hit; cbn [app].
  rewrite replaceAll_miss_head by discriminate; reflexivity.
Qed.

Lemma pretty_double_flat (s : jsstring) :
  pretty (flat :: flat :: s) = 0xD834%N :: 0xDD2B%N :: pretty s.
Proof.
  rewrite !pretty_passes.
  rewrite !(replaceAll_miss_head sharp) by discriminate.
  rewrite replaceAll_pair_hit; cbn [app].
  rewrite !replaceAll_miss_head by discriminate; reflexivity.
Qed.

Lemma pretty_single_flat (s : jsstring) :
  startsWith [flat] s = false ->
  pretty (flat :: s) = 0x266D%N :: pretty s.
Proof.
  intros H; rewrite !pretty_passes.
  rewrite (replaceAll_miss_head sharp) by discriminate.
  rewrite replaceAll_pair_miss
    by (apply replaceAll_head; [discriminate | reflexivity | exact H]).
  rewrite (replaceAll_miss_head sharp) by discriminate.
  rewrite replaceAll_unit_hit; reflexivity.
Qed.

(** How [asciiNote] reads the head of a string. *)
Lemma asciiNote_other (c : N) (t : jsstring) :
  c <> 0x266F%N -> c <> 0x266D%N -> c <> 0xD834%N ->
  asciiNote (c :: t) = c :: asciiNote t.
Proof.
  intros H1 H2 H3; rewrite !asciiNote_passes.
  rewrite !replaceAll_miss_head by assumption; reflexivity.
Qed.

Lemma asciiNote_sharp_sign (t : jsstring) :
  asciiNote (0x266F%N :: t) = sharp :: asciiNote t.
Proof.
  rewrite !asciiNote_passes, replaceAll_unit_hit; cbn [app].
  rewrite !replaceAll_miss_head by discriminate; reflexivity.
Qed.

Lemma asciiNote_flat_sign (t : jsstring) :
  asciiNote (0x266D%N :: t) = flat :: asciiNote t.
Proof.
  rewrite !asciiNote_passes.
  rewrite !(replaceAll_miss_head 0x266F%N), (replaceAll_miss_head 0xD834%N)
    by discriminate.
  rewrite replaceAll_unit_hit; cbn [app].
  rewrite replaceAll_miss_head by discriminate; reflexivity.
Qed.

Lemma asciiNote_double_sharp_sign (t : jsstring) :
  asciiNote (0xD834%N :: 0xDD2A%N :: t) = sharp :: sharp :: asciiNote t.
Proof.
  rewrite !asciiNote_passes.
  rewrite !(replaceAll_miss_head 0x266F%N) by discriminate.
  rewrite replaceAll_pair_hit; cbn [app].
  rewrite !replaceAll_miss_head by discriminate; reflexivity.
Qed.

Lemma asciiNote_double_flat_sign (t : jsstring) :
  asciiNote (0xD834%N :: 0xDD2B%N :: t) = flat :: flat :: asciiNote t.
Proof.
  rewrite !asciiNote_passes.
  rewrite !(replaceAll_miss_head 0x266F%N) by discriminate.
  rewrite (replaceAll_miss [0xD834%N; 0xDD2A%N]) by reflexivity.
  rewrite (replaceAll_miss_head 0xD834%N) by discriminate.
  rewrite !(replaceAll_miss_head 0x266D%N) by discriminate.
  rewrite replaceAll_pair_hit; reflexivity.
Qed.

Lemma asciiNote_pretty_bounded (n : nat) (s : jsstring) :
  (List.length s <= n)%nat -> glyphFree s -> asciiNote (pretty s) = s.
Proof.
  revert s; induction n as [|n IH]; intros s Hlen Hs.
  - destruct s; [reflexivity | simpl in Hlen; lia].
  - destruct s as [|c s]; [reflexivity|].
    inversion Hs as [| ? ? (G1 & G2 & G3) Hs']; subst.
    simpl in Hlen.
    destruct (N.eq_dec c sharp) as [-> | Ns].
    + destruct s as [|d s].
      * reflexivity.
      * destruct (N.eq_dec d sharp) as [-> | Nd].
        -- inversion Hs'; subst.
           rewrite pretty_double_sharp, asciiNote_double_sharp_sign.
           rewrite IH; [reflexivity | simpl in Hlen; lia | assumption].
        -- rewrite pretty_single_sharp, asciiNote_sharp_sign.
           ++ rewrite IH; [reflexivity | lia | assumption].
           ++ cbn [startsWith]; apply not_eq_sym, N.eqb_neq in Nd.
              rewrite Nd; reflexivity.
    + destruct (N.eq_dec c flat) as [-> | Nf].
      * destruct s as [|d s].
        -- reflexivity.
        -- destruct (N.eq_dec d flat) as [-> | Nd].
           ++ inversion Hs'; subst.
              rewrite pretty_double_flat, asciiNote_double_flat_sign.
              rewrite IH; [reflexivity | simpl in Hlen; lia | assumption].
           ++ rewrite pretty_single_flat, asciiNote_flat_sign.
              ** rewrite IH; [reflexivity | lia | assumption].
              ** cbn [startsWith]; apply not_eq_sym, N.eqb_neq in Nd.
                 rewrite Nd; reflexivity.
      * rewrite pretty_other, asciiNote_other by assumption.
        rewrite IH; [reflexivity | lia | assumption].
Qed.

(** X1: [asciiNote] undoes [pretty] on every string that holds no unit of
    an accidental glyph: the sharp and flat marks come back, single and
    double, where they were. *)
Theorem asciiNote_pretty (s : jsstring) :
  glyphFree s -> asciiNote (pretty s) = s.
Proof. apply (asciiNote_pretty_bounded (List.length s)); lia. Qed.

Lemma asciiNote_pretty_witness :
  asciiNote (pretty (js "Ebb / D## b#")) = js "Ebb / D## b#".
Proof.
  apply (asciiNote_pretty (js "Ebb / D## b#")).
  repeat constructor; discriminate.
Defined.

(** The other way round fails: two sharp signs come back as one double
    sharp sign. *)
Example pretty_asciiNote_merges :
  pretty (asciiNote (js "C♯♯")) = js "C𝄪".
Proof. reflexivity. Qed.

Lemma asciiNote_glyphFree (s : jsstring) : glyphFree s -> asciiNote s = s.
Proof.
  intros H; rewrite asciiNote_passes.
  assert (A : forall p, In p [0x266F%N; 0x266D%N; 0xD834%N] ->
                        Forall (fun x => x <> p) s).
  { intros p Hp; eapply Forall_impl; [| exact H]; cbv beta.
    intros c (G1 & G2 & G3); simpl in Hp.
    destruct Hp as [<- | [<- | [<- | []]]]; assumption. }
  rewrite (replaceAll_absent 0x266F%N _ _ s) by (apply A; simpl; tauto).
  rewrite (replaceAll_absent 0xD834%N _ _ s) by (apply A; simpl; tauto).
  rewrite (replaceAll_absent 0x266D%N _ _ s) by (apply A; simpl; tauto).
  rewrite (replaceAll_absent 0xD834%N _ _ s) by (apply A; simpl; tauto).
  reflexivity.
Qed.

(** The two normalisers read a string through [asciiNote] only, but for
    the test on the empty string. *)
Lemma normalizeToken_asciiNote (n m : jsstring) :
  n <> [] -> m <> [] -> asciiNote n = asciiNote m ->
  normalizeToken n = normalizeToken m.
Proof.
  intros Hn Hm E; destruct n; [contradiction|]; destruct m; [contradiction|].
  unfold normalizeToken; rewrite E; reflexivity.
Qed.

(** X2: a rendered spelling reads as its ASCII form: on a string without
    glyph units, [normalizeToken], [normalizeMinorToken] and
    [spelledToMidi] give the same result before and after [pretty]. *)
Theorem rendered_spelling_reads_the_same (s : jsstring) (oct : Z) :
  glyphFree s ->
  normalizeToken (pretty s) = normalizeToken s /\
  normalizeMinorToken (pretty s) = normalizeMinorToken s /\
  spelledToMidi (pretty s) oct = spelledToMidi s oct.
Proof.
  intros H.
  pose proof (asciiNote_pretty s H) as R.
  pose proof (asciiNote_glyphFree s H) as I.
  assert (N : normalizeToken (pretty s) = normalizeToken s).
  { destruct s as [|c s]; [reflexivity|].
    apply normalizeToken_asciiNote; [| discriminate | congruence].
    intros E; rewrite E in R; discriminate R. }
  split; [exact N | split].
  - unfold normalizeMinorToken; rewrite R, I; reflexivity.
  - unfold spelledToMidi; rewrite N; reflexivity.
Qed.

Lemma rendered_spelling_reads_the_same_witness :
  normalizeToken (pretty (js "f## / gb")) = normalizeToken (js "f## / gb") /\
  normalizeMinorToken (pretty (js "f## / gb")) = normalizeMinorToken (js "f## / gb") /\
  spelledToMidi (pretty (js "f## / gb")) 4 = spelledToMidi (js "f## / gb") 4.
Proof.
  apply (rendered_spelling_reads_the_same (js "f## / gb") 4).
  repeat constructor; discriminate.
Defined.

Lemma replaceAll_unit_removes (p : N) (rep s : jsstring) :
  ~ In p rep -> ~ In p (replaceAll [p] rep s).
Proof.
  intros Hrep; induction s as [|c s IH]; [intros []|].
  destruct (N.eq_dec c p) as [-> | Hc].
  - rewrite replaceAll_unit_hit, in_app_iff; tauto.
  - rewrite replaceAll_miss_head by exact Hc.
    intros [E | E]; [congruence | tauto].
Qed.

Lemma replaceAll_unit_keeps_absent (p q : N) (rep s : jsstring) :
  ~ In q rep -> ~ In q s -> ~ In q (replaceAll [p] rep s).
Proof.
  intros Hrep; induction s as [|c s IH]; [intros _ []|].
  intros Hs; simpl in Hs.
  destruct (N.eq_dec c p) as [-> | Hc].
  - rewrite replaceAll_unit_hit, in_app_iff; tauto.
  - rewrite replaceAll_miss_head by exact Hc.
    intros [E | E]; [tauto | apply IH; tauto].
Qed.

(** X3: a rendered string shows no ASCII mark: whatever the input,
    [pretty] leaves neither [#] nor [b] in its result. *)
Theorem pretty_leaves_no_ascii_mark (s : jsstring) :
  ~ In sharp (pretty s) /\ ~ In flat (pretty s).
Proof.
  rewrite pretty_passes; split.
  - apply replaceAll_unit_keeps_absent; [simpl; intuition discriminate|].
    apply replaceAll_unit_removes; simpl; intuition discriminate.
  - apply replaceAll_unit_removes; simpl; intuition discriminate.
Qed.

(** ** Raising and the MIDI number *)

Lemma spelledToMidi_mod (L : N) (acc : jsstring) (p oct : Z) :
  lookup NAT_PC [L] = Some p -> marks acc ->
  count_unit flat acc <= 120 + count_unit sharp acc ->
  spelledToMidi (L :: acc) oct = Num (12 * (oct + 1) + (p + offset acc) mod 12).
Proof.
  intros HL Hacc Hb.
  rewrite (spelledToMidi_spelling L acc p oct HL Hacc).
  destruct (NAT_PC_letters L p HL) as [_ Rp].
  unfold offset in *.
  rewrite Z.rem_mod_nonneg by lia.
  replace (p + (count_unit sharp acc - count_unit flat acc) + 120)
    with (p + (count_unit sharp acc - count_unit flat acc) + 10 * 12) by lia.
  rewrite Z_mod_plus_full; reflexivity.
Qed.








(** X5: the MIDI number of a spelling stays within the octave asked for:
    on a letter of the seven with marks, at most 120 flats more than
    sharps, it lies between 12 * (octave + 1) and 11 more, so that an
    accidental that crosses C wraps around (B#4 is 60 like C4, Cb4 is 71
    like B4), and a note voiced at octave 5 sounds above every note voiced
    at octave 4. *)
Theorem spelledToMidi_within_octave :
  (forall L acc p oct,
      lookup NAT_PC [L] = Some p -> marks acc ->
      count_unit flat acc <= 120 + count_unit sharp acc ->
      exists m,
        spelledToMidi (L :: acc) oct = Num m /\
        12 * (oct + 1) <= m <= 12 * (oct + 1) + 11) /\
  (forall L1 acc1 p1 L2 acc2 p2,
      lookup NAT_PC [L1] = Some p1 -> marks acc1 ->
      count_unit flat acc1 <= 120 + count_unit sharp acc1 ->
      lookup NAT_PC [L2] = Some p2 -> marks acc2 ->
      count_unit flat acc2 <= 120 + count_unit sharp acc2 ->
      exists lo hi,
        spelledToMidi (L1 :: acc1) 4 = Num lo /\
        spelledToMidi (L2 :: acc2) 5 = Num hi /\ lo < hi) /\
  spelledToMidi (js "B#") 4 = spelledToMidi (js "C") 4 /\
  spelledToMidi (js "Cb") 4 = spelledToMidi (js "B") 4.
Proof.
  assert (R : forall L acc p oct,
             lookup NAT_PC [L] = Some p -> marks acc ->
             count_unit flat acc <= 120 + count_unit sharp acc ->
             exists m,
               spelledToMidi (L :: acc) oct = Num m /\
               12 * (oct + 1) <= m <= 12 * (oct + 1) + 11).
  { intros L acc p oct HL M B.
    rewrite (spelledToMidi_mod L acc p oct HL M B).
    eexists; split; [reflexivity|].
    pose proof (Z.mod_pos_bound (p + offset acc) 12); lia. }
  split; [exact R | split; [| split; reflexivity]].
  intros L1 acc1 p1 L2 acc2 p2 H1 M1 B1 H2 M2 B2.
  destruct (R L1 acc1 p1 4 H1 M1 B1) as (lo & E1 & R1).
  destruct (R L2 acc2 p2 5 H2 M2 B2) as (hi & E2 & R2).
  exists lo, hi; repeat split; try assumption; lia.
Qed.

Lemma spelledToMidi_within_octave_witness :
  exists m,
    spelledToMidi (js "A##") 2 = Num m /\
    12 * (2 + 1) <= m <= 12 * (2 + 1) + 11.
Proof.
  destruct spelledToMidi_within_octave as [R _].
  apply (R 0x41%N (js "##") 9 2).
  - reflexivity.
  - repeat constructor; left; reflexivity.
  - vm_compute; discriminate.
Defined.

(** ** The token normalisers *)

Lemma split_first_no_sep (sep : N) (s : jsstring) :
  Forall (fun c => c <> sep) (fst (split sep s)).
Proof.
  induction s as [|c s IH]; simpl; [constructor|].
  destruct (split sep s) as [p ps]; destruct (N.eqb_spec c sep);
    simpl in *; [constructor | constructor; assumption].
Qed.

Lemma split_first_incl (sep : N) (s : jsstring) :
  incl (fst (split sep s)) s.
Proof.
  induction s as [|c s IH]; simpl; [apply incl_refl|].
  destruct (split sep s) as [p ps]; destruct (N.eqb c sep); simpl in *.
  - intros x [].
  - intros x [-> | H]; [left; reflexivity | right; apply IH; exact H].
Qed.

(** [trimStart] drops a prefix, and what is left does not start with white
    space. *)
Lemma trimStart_suffix (s : jsstring) : exists p, s = p ++ trimStart s.
Proof.
  induction s as [|c s [p IH]]; [exists []; reflexivity|].
  simpl; destruct (isWhiteSpace c).
  - exists (c :: p); simpl; f_equal; exact IH.
  - exists []; reflexivity.
Qed.

Lemma trimStart_head_graphic (s : jsstring) (c : N) (r : jsstring) :
  trimStart s = c :: r -> isWhiteSpace c = false.
Proof.
  induction s as [|x s IH]; simpl; [discriminate|].
  destruct (isWhiteSpace x) eqn:E; [exact IH|].
  intros H; inversion H; subst; exact E.
Qed.

Lemma trim_incl (s : jsstring) : incl (trim s) s.
Proof.
  unfold trim, trimEnd.
  destruct (trimStart_suffix s) as [p Hp].
  destruct (trimStart_suffix (rev (trimStart s))) as [q Hq].
  intros x Hx; apply in_rev in Hx.
  rewrite Hp; apply in_or_app; right.
  apply in_rev; rewrite Hq; apply in_or_app; right; exact Hx.
Qed.

Lemma trim_head_graphic (s : jsstring) (c : N) (r : jsstring) :
  trim s = c :: r -> isWhiteSpace c = false.
Proof.
  unfold trim, trimEnd; intros H.
  destruct (trimStart_suffix (rev (trimStart s))) as [q Hq].
  apply (f_equal (@rev N)) in Hq.
  rewrite rev_involutive, rev_app_distr, H in Hq.
  apply (trimStart_head_graphic s c (r ++ rev q)); exact Hq.
Qed.

Lemma trimStart_blank (s : jsstring) : blank s -> trimStart s = [].
Proof.
  induction 1 as [|c s Hc _ IH]; [reflexivity|].
  simpl; rewrite Hc; exact IH.
Qed.

Lemma keepMarks_marks (s : jsstring) : marks (keepMarks s).
Proof.
  unfold marks, keepMarks; apply Forall_forall; intros c Hc.
  apply filter_In in Hc; destruct Hc as [_ Hc].
  apply orb_true_iff in Hc; destruct Hc as [Hc | Hc];
    apply N.eqb_eq in Hc; auto.
Qed.

(** The result of [normalizeToken] on an ASCII string. *)
Lemma normalizeToken_ascii (n : jsstring) :
  asciiOnly n ->
  normalizeToken n = js "C" \/
  exists c r,
    trim (fst (split slash n)) = c :: r /\
    normalizeToken n = upper_unit c :: keepMarks r /\
    (c < 0x80)%N /\ c <> slash /\ isWhiteSpace c = false.
Proof.
  intros H; destruct n as [|x n]; [left; reflexivity|].
  unfold normalizeToken; rewrite (asciiNote_plain _ H).
  destruct (trim (fst (split slash (x :: n)))) as [|c r] eqn:E;
    [left; reflexivity | right].
  exists c, r; split; [reflexivity | split; [reflexivity|]].
  assert (I : In c (fst (split slash (x :: n))))
    by (apply trim_incl; rewrite E; left; reflexivity).
  split; [| split].
  - apply split_first_incl in I.
    unfold asciiOnly in H; rewrite Forall_forall in H; exact (H c I).
  - pose proof (split_first_no_sep slash (x :: n)) as F.
    rewrite Forall_forall in F; exact (F c I).
  - exact (trim_head_graphic _ _ _ E).
Qed.

Lemma upper_unit_facts (c : N) :
  (c < 0x80)%N -> c <> slash -> isWhiteSpace c = false ->
  (upper_unit c < 0x80)%N /\ upper_unit c <> slash /\
  isWhiteSpace (upper_unit c) = false /\
  upper_unit (upper_unit c) = upper_unit c /\
  ~ (0x61 <= upper_unit c <= 0x7A)%N.
Proof.
  intros A S W; unfold upper_unit, slash in *.
  destruct ((0x61 <=? c) && (c <=? 0x7A))%N eqn:E.
  - apply andb_true_iff in E; destruct E as [E1 E2].
    apply N.leb_le in E1, E2.
    repeat split; try lia.
    + apply isWhiteSpace_graphic; lia.
    + replace (N.leb 0x61 (c - 0x20)) with false
        by (symmetry; apply N.leb_gt; lia); reflexivity.
  - rewrite E; repeat split; try assumption.
    apply andb_false_iff in E; destruct E as [E | E];
      [apply N.leb_gt in E | apply N.leb_gt in E]; lia.
Qed.

Lemma normalizeToken_ascii_normal (n : jsstring) :
  asciiOnly n ->
  (exists c run,
      normalizeToken n = c :: run /\ marks run /\
      ~ (0x61 <= c <= 0x7A)%N) /\
  normalizeToken (normalizeToken n) = normalizeToken n.
Proof.
  intros H; destruct (normalizeToken_ascii n H) as [-> | (c & r & _ & -> & A & S & W)].
  - split; [| reflexivity].
    exists 0x43%N, []; repeat split; [constructor | lia].
  - destruct (upper_unit_facts c A S W) as (A' & S' & W' & I & NL).
    pose proof (keepMarks_marks r) as M.
    split; [exists (upper_unit c), (keepMarks r); auto|].
    assert (P : asciiOnly (upper_unit c :: keepMarks r)).
    { constructor; [exact A'|].
      apply marks_units; [reflexivity | reflexivity | exact M]. }
    unfold normalizeToken at 1; rewrite (asciiNote_plain _ P).
    rewrite split_absent; cbn [fst].
    2:{ constructor; [exact S'|].
        apply marks_units; [discriminate | discriminate | exact M]. }
    rewrite trim_no_space.
    2:{ constructor; [exact W'|].
        apply marks_units; [reflexivity | reflexivity | exact M]. }
    cbn [first slice1 tl toUpperCase map app]; rewrite I.
    unfold keepMarks at 1; rewrite filter_all; [reflexivity|].
    eapply Forall_impl; [| exact M]; cbv beta; intros x [-> | ->]; reflexivity.
Qed.

(** X6: on an ASCII string [normalizeToken] returns one unit that is not a
    lower-case letter, followed by sharp and flat marks only, and
    normalising the result again changes nothing. *)
Theorem normalizeToken_normal_form (n : jsstring) :
  asciiOnly n ->
  (exists c run,
      normalizeToken n = c :: run /\ marks run /\
      ~ (0x61 <= c <= 0x7A)%N) /\
  normalizeToken (normalizeToken n) = normalizeToken n.
Proof. exact (normalizeToken_ascii_normal n). Qed.

Lemma normalizeToken_normal_form_witness :
  normalizeToken (normalizeToken (js " g#x2b / Ab "))
  = normalizeToken (js " g#x2b / Ab ").
Proof.
  apply (normalizeToken_normal_form (js " g#x2b / Ab ")).
  repeat constructor.
Defined.

Example normalizeToken_drops_other_units :
  normalizeToken (js " g#x2b / Ab ") = js "G#b".
Proof. reflexivity. Qed.

Lemma blank_first_part (n : jsstring) :
  blank n -> trim (fst (split slash (asciiNote n))) = [].
Proof.
  intros H.
  assert (G : forall k, isWhiteSpace k = false -> Forall (fun c => c <> k) n).
  { intros k Hk; eapply Forall_impl; [| exact H]; cbv beta.
    intros c Hc ->; rewrite Hk in Hc; discriminate. }
  rewrite asciiNote_glyphFree.
  2:{ apply Forall_forall; intros c Hc.
      repeat split;
        match goal with
        | |- c <> ?k =>
          let F := fresh in
          pose proof (G k eq_refl) as F; rewrite Forall_forall in F; exact (F c Hc)
        end. }
  rewrite split_absent by (apply G; reflexivity); cbn [fst].
  unfold trim; rewrite (trimStart_blank n H); reflexivity.
Qed.

(** X7: a tonic that is empty or white space falls back to the defaults:
    [normalizeToken] gives C and [normalizeMinorToken] gives a, so that the
    major scale built is C major, the minor scale A harmonic minor, and
    the MIDI number the C of the octave. *)
Theorem blank_tonic_defaults (n : jsstring) (pref : EnhPref) (oct : Z) :
  blank n ->
  normalizeToken n = js "C" /\
  normalizeMinorToken n = js "a" /\
  relativeMajorFromMinor n pref = js "C" /\
  buildScaleFromKeyName n major pref =
    Returns [Str (js "C"); Str (js "D"); Str (js "E"); Str (js "F");
             Str (js "G"); Str (js "A"); Str (js "B")] /\
  buildScaleFromKeyName n minor pref =
    Returns [Str (js "A"); Str (js "B"); Str (js "C"); Str (js "D");
             Str (js "E"); Str (js "F"); Str (js "G#")] /\
  spelledToMidi n oct = Num (12 * (oct + 1)).
Proof.
  intros H; pose proof (blank_first_part n H) as B.
  assert (T : normalizeToken n = js "C").
  { destruct n; [reflexivity|]; unfold normalizeToken; rewrite B; reflexivity. }
  assert (M : normalizeMinorToken n = js "a").
  { unfold normalizeMinorToken; rewrite B; reflexivity. }
  assert (R : relativeMajorFromMinor n pref = js "C").
  { rewrite (relativeMajorFromMinor_token n _ pref M); reflexivity. }
  repeat split; try assumption.
  - unfold buildScaleFromKeyName; rewrite T; reflexivity.
  - unfold buildScaleFromKeyName, minorScaleBeforeRaise; rewrite M, R; reflexivity.
  - unfold spelledToMidi; rewrite T.
    change (lookup NAT_PC (toStr (first (asciiNote (js "C"))))) with (Some 0).
    cbv iota beta zeta.
    change (Z.rem (0 + (count_unit sharp (slice1 (asciiNote (js "C")))
                        - count_unit flat (slice1 (asciiNote (js "C")))) + 120) 12)
      with 0.
    f_equal; lia.
Qed.

Lemma blank_tonic_defaults_witness :
  buildScaleFromKeyName (js "   ") minor flats =
  Returns [Str (js "A"); Str (js "B"); Str (js "C"); Str (js "D");
           Str (js "E"); Str (js "F"); Str (js "G#")].
Proof.
  apply (blank_tonic_defaults (js "   ") flats 4).
  repeat constructor.
Defined.

(** ** Keys the signature table does not hold *)

Lemma signature_unknown_key (name : jsstring) :
  lookup MAJOR_SIG_COUNTS (normalizeToken name) = None ->
  signatureForMajorName name =
  {| sig_type := FlatSig; sig_count := NaN; sig_set := [] |}.
Proof. intros H; unfold signatureForMajorName; rewrite H; reflexivity. Qed.

Lemma walk_tail_letters (start : Z) :
  In start [-1; 0; 1; 2; 3; 4; 5; 6] ->
  exists v rest,
    walk start = v :: rest /\ List.length rest = 6%nat /\ incl rest LETTERS.
Proof.
  intros H; simpl in H.
  repeat (destruct H as [H | H];
          [subst start; eexists _, _; split; [reflexivity |];
           split; [reflexivity | vm_compute; tauto] |]).
  contradiction.
Qed.

(** X8: a major tonic whose normal form is not a key of the signature
    table gets a [NaN] count and an empty set, and no accidental at all:
    after the normalised tonic at index 0 the scale holds six bare natural
    letters. *)
Theorem buildScale_major_unknown_key (tonicRaw : jsstring) (pref : EnhPref) :
  asciiOnly tonicRaw ->
  lookup MAJOR_SIG_COUNTS (normalizeToken tonicRaw) = None ->
  sig_count (signatureForMajorName (normalizeToken tonicRaw)) = NaN /\
  exists rest,
    buildScaleFromKeyName tonicRaw major pref
    = Returns (Str (normalizeToken tonicRaw) :: rest) /\
    List.length rest = 6%nat /\ incl rest LETTERS.
Proof.
  intros A H.
  destruct (normalizeToken_ascii_normal tonicRaw A) as [_ I].
  assert (S : signatureForMajorName (normalizeToken tonicRaw) =
              {| sig_type := FlatSig; sig_count := NaN; sig_set := [] |})
    by (apply signature_unknown_key; rewrite I; exact H).
  split; [rewrite S; reflexivity|].
  unfold buildScaleFromKeyName; rewrite S.
  destruct (walk_tail_letters _ (indexOf_LETTERS (first (normalizeToken tonicRaw))))
    as (v & rest & -> & L & Inc).
  exists rest; split; [| split; assumption].
  cbn [map set]; f_equal; f_equal.
  clear; induction rest as [|x rest IH]; [reflexivity|].
  cbn [map]; rewrite IH; reflexivity.
Qed.

Lemma buildScale_major_unknown_key_witness :
  exists rest,
    buildScaleFromKeyName (js "g#") major auto
    = Returns (Str (normalizeToken (js "g#")) :: rest) /\
    List.length rest = 6%nat /\ incl rest LETTERS.
Proof.
  apply (buildScale_major_unknown_key (js "g#") auto).
  - repeat constructor.
  - reflexivity.
Defined.

(** G sharp major, which the table does not hold, and a tonic off the
    letters. *)
Example scale_of_unknown_keys :
  buildScaleFromKeyName (js "g#") major auto =
    Returns [Str (js "G#"); Str (js "A"); Str (js "B"); Str (js "C");
             Str (js "D"); Str (js "E"); Str (js "F")] /\
  buildScaleFromKeyName (js "h") major auto =
    Returns [Str (js "H"); Str (js "C"); Str (js "D"); Str (js "E");
             Str (js "F"); Str (js "G"); Str (js "A")].
Proof. split; reflexivity. Qed.

(** ** The scales of the tables *)

(** X11: the major scale of each of the 15 keys of the signature table
    is a major scale by its MIDI numbers: the successive entries are 2,
    2, 1, 2, 2, 2 semitones apart, and the last one 1 below the tonic. *)
Theorem buildScale_major_steps (tonic : jsstring) (n : Z) (pref : EnhPref) :
  In (tonic, n) MAJOR_SIG_COUNTS ->
  exists scale,
    buildScaleFromKeyName tonic major pref = Returns scale /\
    steps scale = map Some [2; 2; 1; 2; 2; 2; 1].
Proof.
  intros H; simpl in H.
  repeat (destruct H as [H | H];
          [inversion H; subst tonic n; clear H;
           destruct pref; eexists; split; reflexivity |]).
  contradiction.
Qed.

Lemma buildScale_major_steps_witness :
  exists scale,
    buildScaleFromKeyName (js "Cb") major auto = Returns scale /\
    steps scale = map Some [2; 2; 1; 2; 2; 2; 1].
Proof.
  apply (buildScale_major_steps (js "Cb") (-7) auto).
  vm_compute; tauto.
Defined.

(** X13: in the major scale of a key of the table with count [n], the
    entries that carry a sharp are [n] when [n] is positive and none
    otherwise, those that carry a flat [-n] when [n] is negative and none
    otherwise; their letters are the letters of the signature set; and
    the signature already spells the tonic, so that storing the tonic at
    index 0 changes nothing. *)
Theorem buildScale_major_accidentals (tonic : jsstring) (n : Z) (pref : EnhPref) :
  In (tonic, n) MAJOR_SIG_COUNTS ->
  exists scale,
    buildScaleFromKeyName tonic major pref = Returns scale /\
    Z.of_nat (List.length (markedWith sharp scale)) = Z.max n 0 /\
    Z.of_nat (List.length (markedWith flat scale)) = Z.max (- n) 0 /\
    incl (sig_set (signatureForMajorName tonic))
         (markedWith sharp scale ++ markedWith flat scale) /\
    incl (markedWith sharp scale ++ markedWith flat scale)
         (sig_set (signatureForMajorName tonic)) /\
    applySignature (Str (letterOf (Str tonic))) (signatureForMajorName tonic)
    = Str tonic.
Proof.
  intros H; simpl in H.
  repeat (destruct H as [H | H];
          [inversion H; subst tonic n; clear H;
           destruct pref; eexists; (split; [reflexivity |]);
           (split; [reflexivity |]); (split; [reflexivity |]);
           (split; [vm_compute; tauto |]);
           (split; [vm_compute; tauto | reflexivity]) |]).
  contradiction.
Qed.

Lemma buildScale_major_accidentals_witness :
  exists scale,
    buildScaleFromKeyName (js "A") major auto = Returns scale /\
    Z.of_nat (List.length (markedWith sharp scale)) = Z.max 3 0 /\
    Z.of_nat (List.length (markedWith flat scale)) = Z.max (- 3) 0 /\
    incl (sig_set (signatureForMajorName (js "A")))
         (markedWith sharp scale ++ markedWith flat scale) /\
    incl (markedWith sharp scale ++ markedWith flat scale)
         (sig_set (signatureForMajorName (js "A"))) /\
    applySignature (Str (letterOf (Str (js "A")))) (signatureForMajorName (js "A"))
    = Str (js "A").
Proof.
  apply (buildScale_major_accidentals (js "A") 3 auto).
  vm_compute; tauto.
Defined.

(** ** The selections of the circle *)

(** The twelve cases of a position given by its index. *)
Ltac each_position_from H :=
  lazymatch type of H with
  | nth_error [] ?i = Some _ => destruct i; discriminate H
  | nth_error _ ?i = Some _ =>
    destruct i;
    [ cbn [nth_error] in H; inversion H; subst; clear H
    | cbn [nth_error] in H; each_position_from H ]
  end.

Ltac each_position H := unfold POSITIONS in H; each_position_from H.

(** X9: for every position of the circle, mode and preference, the tonic
    handed to the scale builder is one name without a slash, the key whose
    signature is looked up is in the signature table, and the label
    [displayMain] shows is the rendering of the first entry of the scale;
    under auto the count of the major key is the accidental count the
    position declares. *)
Theorem selection_is_well_formed
  (i : nat) (pos : Pos) (mode : Mode) (pref : EnhPref) :
  nth_error POSITIONS i = Some pos ->
  exists tonic first rest,
    tonicNameForSpelling pos mode pref = Returns tonic /\
    noSlash tonic /\
    lookup MAJOR_SIG_COUNTS
      (normalizeToken (match mode with
                       | major => normalizeToken tonic
                       | minor => relativeMajorFromMinor tonic pref
                       end)) <> None /\
    spelledScale pos mode pref = Returns (Str first :: rest) /\
    displayMain mode pref pos = Returns (pretty first) /\
    (pref = auto -> mode = major ->
     lookup MAJOR_SIG_COUNTS (normalizeToken tonic) = Some (pos_acc pos)).
Proof.
  intros H; each_position H.
  all: destruct mode, pref.
  all: match goal with
       | |- exists tonic first rest, tonicNameForSpelling ?p ?m ?e = _ /\ _ =>
         let o := eval vm_compute in (tonicNameForSpelling p m e) in
         let sc := eval vm_compute in (spelledScale p m e) in
         lazymatch o with
         | Returns ?t =>
           lazymatch sc with
           | Returns (Str ?f :: ?r) => exists t, f, r
           end
         end
       end.
  all: (split; [vm_compute; reflexivity |]).
  all: (split; [vm_compute; reflexivity |]).
  all: (split; [vm_compute; discriminate |]).
  all: (split; [vm_compute; reflexivity |]).
  all: (split; [vm_compute; reflexivity |]).
  all: intros; try discriminate; vm_compute; reflexivity.
Qed.

Lemma selection_is_well_formed_witness :
  exists tonic first rest,
    tonicNameForSpelling
      {| pos_major := js "F# / Gb"; pos_minor := js "d# / eb"; pos_acc := 6 |}
      major auto = Returns tonic /\
    noSlash tonic /\
    lookup MAJOR_SIG_COUNTS (normalizeToken (normalizeToken tonic)) <> None /\
    spelledScale
      {| pos_major := js "F# / Gb"; pos_minor := js "d# / eb"; pos_acc := 6 |}
      major auto = Returns (Str first :: rest) /\
    displayMain major auto
      {| pos_major := js "F# / Gb"; pos_minor := js "d# / eb"; pos_acc := 6 |}
    = Returns (pretty first) /\
    (auto = auto -> major = major ->
     lookup MAJOR_SIG_COUNTS (normalizeToken tonic) = Some 6).
Proof.
  apply (selection_is_well_formed 6
           {| pos_major := js "F# / Gb"; pos_minor := js "d# / eb"; pos_acc := 6 |}
           major auto).
  reflexivity.
Defined.

(** X10: in minor mode the relative major [displayRel] shows is the key
    whose signature builds the scale, but for two selections: G sharp
    minor under flats is built on C flat major and shown with B, B flat
    minor under auto is built on C sharp major and shown with D flat. *)
Theorem relative_major_shown_and_used (i : nat) (pos : Pos) (pref : EnhPref) :
  nth_error POSITIONS i = Some pos ->
  exists tonic shown,
    tonicNameForSpelling pos minor pref = Returns tonic /\
    displayRel minor pref pos = Returns (pretty shown) /\
    lookup MAJOR_SIG_COUNTS shown <> None /\
    (relativeKeyMismatch i pref = false ->
     relativeMajorFromMinor tonic pref = shown) /\
    (relativeKeyMismatch i pref = true ->
     (tonic, relativeMajorFromMinor tonic pref, shown)
     = (js "g#", js "Cb", js "B") \/
     (tonic, relativeMajorFromMinor tonic pref, shown)
     = (js "bb", js "C#", js "Db")).
Proof.
  intros H; each_position H.
  all: destruct pref.
  all: match goal with
       | |- exists tonic shown, tonicNameForSpelling ?p minor ?e = _ /\ _ =>
         let o := eval vm_compute in (tonicNameForSpelling p minor e) in
         let sh := eval vm_compute in
                    (match tonicNameForSpelling p major e with
                     | Returns name => normalizeToken name
                     | TypeError => []
                     end) in
         lazymatch o with
         | Returns ?t => exists t, sh
         end
       end.
  all: (split; [vm_compute; reflexivity |]).
  all: (split; [vm_compute; reflexivity |]).
  all: (split; [vm_compute; discriminate |]).
  all: (split; [intros E; try discriminate E; vm_compute; reflexivity |]).
  all: intros E; try discriminate E.
  all: first [left; vm_compute; reflexivity | right; vm_compute; reflexivity].
Qed.

Lemma relative_major_shown_and_used_witness :
  exists tonic shown,
    tonicNameForSpelling
      {| pos_major := js "Db / C#"; pos_minor := js "bb / a#"; pos_acc := -5 |}
      minor auto = Returns tonic /\
    displayRel minor auto
      {| pos_major := js "Db / C#"; pos_minor := js "bb / a#"; pos_acc := -5 |}
    = Returns (pretty shown) /\
    lookup MAJOR_SIG_COUNTS shown <> None /\
    (relativeKeyMismatch 7 auto = false ->
     relativeMajorFromMinor tonic auto = shown) /\
    (relativeKeyMismatch 7 auto = true ->
     (tonic, relativeMajorFromMinor tonic auto, shown)
     = (js "g#", js "Cb", js "B") \/
     (tonic, relativeMajorFromMinor tonic auto, shown)
     = (js "bb", js "C#", js "Db")).
Proof.
  apply (relative_major_shown_and_used 7
           {| pos_major := js "Db / C#"; pos_minor := js "bb / a#"; pos_acc := -5 |}
           auto).
  reflexivity.
Defined.

(** X12: the minor scale of a selection of the circle is a harmonic minor
    scale by its MIDI numbers, with steps of 2, 1, 2, 2, 1, 3 and 1
    semitones, exactly when the relative major is the one of the position:
    for G sharp minor under flats and B flat minor under auto the steps
    are others. *)
Theorem spelledScale_minor_steps (i : nat) (pos : Pos) (pref : EnhPref) :
  nth_error POSITIONS i = Some pos ->
  exists scale,
    spelledScale pos minor pref = Returns scale /\
    (relativeKeyMismatch i pref = false <->
     steps scale = map Some [2; 1; 2; 2; 1; 3; 1]).
Proof.
  intros H; each_position H.
  all: destruct pref.
  all: match goal with
       | |- exists scale, spelledScale ?p minor ?e = _ /\ _ =>
         let sc := eval vm_compute in (spelledScale p minor e) in
         lazymatch sc with
         | Returns ?l => exists l
         end
       end.
  all: (split; [vm_compute; reflexivity |]).
  all: vm_compute; split; intros E; solve [reflexivity | discriminate E].
Qed.

Lemma spelledScale_minor_steps_witness :
  exists scale,
    spelledScale
      {| pos_major := js "B"; pos_minor := js "g#"; pos_acc := 5 |} minor flats
    = Returns scale /\
    (relativeKeyMismatch 5 flats = false <->
     steps scale = map Some [2; 1; 2; 2; 1; 3; 1]).
Proof.
  apply (spelledScale_minor_steps 5
           {| pos_major := js "B"; pos_minor := js "g#"; pos_acc := 5 |} flats).
  reflexivity.
Defined.

(** The steps of the two scales. *)
Example steps_of_the_two_selections :
  option_map steps
    (match buildScaleFromKeyName (js "g#") minor flats with
     | Returns scale => Some scale | TypeError => None end)
  = Some (map Some [0; 2; 1; 2; 2; 2; 3]) /\
  option_map steps
    (match buildScaleFromKeyName (js "bb") minor auto with
     | Returns scale => Some scale | TypeError => None end)
  = Some (map Some [3; 2; 2; 1; 2; 3; 11]).
Proof. split; reflexivity. Qed.

(** ** Chords on any array *)

Lemma mapi_from_length {B : Type} (f : value -> Z -> B) (arr : list value) (i : Z) :
  List.length (mapi_from f arr i) = List.length arr.
Proof.
  revert i; induction arr as [|r arr IH]; intros i; simpl; [reflexivity|].
  rewrite IH; reflexivity.
Qed.

(** X14: [diatonicTriads] returns one chord for each element of the array
    it is given, none on the empty array, while [diatonicSevenths] always
    returns seven chords, of [undefined] tones on the empty array; on
    seven notes each seventh chord is the triad of its degree with one
    more tone, the roots are the notes of the scale in order, and every
    tone of every chord is a note of the scale. *)
Theorem diatonic_chords_shape :
  (forall scale mode,
      List.length (diatonicTriads scale mode) = List.length scale /\
      List.length (diatonicSevenths scale mode) = 7%nat) /\
  (forall mode,
      Forall (fun c => tones c = [undefined; undefined; undefined; undefined])
             (diatonicSevenths [] mode)) /\
  (forall s0 s1 s2 s3 s4 s5 s6 mode,
      let scale := [s0; s1; s2; s3; s4; s5; s6] in
      map (fun c => firstn 3 (tones c)) (diatonicSevenths scale mode)
      = map tones (diatonicTriads scale mode) /\
      map (fun c => hd undefined (tones c)) (diatonicTriads scale mode) = scale /\
      Forall (fun c => incl (tones c) scale)
             (diatonicTriads scale mode ++ diatonicSevenths scale mode)).
Proof.
  split; [| split].
  - intros scale mode; split.
    + unfold diatonicTriads; apply mapi_from_length.
    + destruct mode; reflexivity.
  - intros mode; destruct mode; repeat constructor.
  - intros s0 s1 s2 s3 s4 s5 s6 mode scale; subst scale.
    split; [destruct mode; reflexivity | split; [destruct mode; reflexivity |]].
    apply Forall_forall; intros c Hc.
    destruct mode; vm_compute in Hc;
      repeat (destruct Hc as [Hc | Hc];
              [subst c; intros v Hv; simpl in Hv |- *; tauto |]);
      contradiction.
Qed.

(** ** Enharmonic resolution on any name *)

(** X16: on a name with a slash only the first two parts count, and only
    the first one is tested for a sharp mark: when it has one, sharps
    selects the first part and flats the second; when it has none, sharps
    selects the second part and flats the first, whether the second part
    has a sharp mark or not.  The parts are returned trimmed. *)
Theorem resolveEnharmonic_first_part_decides
  (x y tail : jsstring) (posAcc : Z) (pref : EnhPref) :
  noSlash x -> noSlash y ->
  tail = [] \/ (exists r, tail = js "/" ++ r) ->
  resolveEnharmonic (x ++ js "/" ++ y ++ tail) posAcc pref =
  Returns (if hasSharpMark (trim x)
           then pick pref posAcc (trim x) (trim y)
           else pick pref posAcc (trim y) (trim x)).
Proof.
  intros Hx Hy Htail.
  rewrite <- (resolveEnharmonic_two_parts x y posAcc pref Hx Hy).
  unfold noSlash in Hx, Hy; change (js "/") with [slash] in *.
  apply includes_unit_false in Hx, Hy.
  assert (S : split slash (x ++ [slash] ++ y ++ tail)
              = (x, y :: snd (split slash (y ++ tail)))).
  { change (x ++ [slash] ++ y ++ tail) with (x ++ slash :: (y ++ tail)).
    rewrite (split_app slash x _ Hx); f_equal; f_equal.
    destruct Htail as [-> | [r ->]].
    - rewrite app_nil_r, (split_absent slash y Hy); reflexivity.
    - change ([slash] ++ r) with (slash :: r).
      rewrite (split_app slash y r Hy); reflexivity. }
  assert (S' : split slash (x ++ [slash] ++ y) = (x, [y])).
  { change (x ++ [slash] ++ y) with (x ++ slash :: y).
    rewrite (split_app slash x y Hx), (split_absent slash y Hy); reflexivity. }
  unfold resolveEnharmonic; change (js "/") with [slash].
  change (x ++ [slash] ++ y ++ tail) with (x ++ slash :: (y ++ tail)) in *.
  change (x ++ [slash] ++ y) with (x ++ slash :: y) in *.
  rewrite !includes_unit_app, S, S'; reflexivity.
Qed.

Lemma resolveEnharmonic_first_part_decides_witness :
  resolveEnharmonic (js "Db / Eb") 0 sharps = Returns (js "Eb") /\
  resolveEnharmonic (js "F# / G# / Ab") 0 flats = Returns (js "G#").
Proof.
  split.
  - apply (resolveEnharmonic_first_part_decides (js "Db ") (js " Eb") [] 0 sharps).
    + reflexivity.
    + reflexivity.
    + left; reflexivity.
  - apply (resolveEnharmonic_first_part_decides
             (js "F# ") (js " G# ") (js "/ Ab") 0 flats).
    + reflexivity.
    + reflexivity.
    + right; exists (js " Ab"); reflexivity.
Defined.

(** X17: the scale of a position never fails: whatever names and count
    the position holds, in either mode and under any preference,
    [resolveEnharmonic] returns a name and [buildScaleFromKeyName]
    returns seven strings; no read of the code meets [undefined]. *)
Theorem spelledScale_always_returns (pos : Pos) (mode : Mode) (pref : EnhPref) :
  exists tonic s0 s1 s2 s3 s4 s5 s6,
    tonicNameForSpelling pos mode pref = Returns tonic /\
    spelledScale pos mode pref =
    Returns [Str s0; Str s1; Str s2; Str s3; Str s4; Str s5; Str s6].
Proof.
  unfold spelledScale, tonicNameForSpelling.
  destruct (resolveEnharmonic_returns
              (match mode with major => pos_major pos | minor => pos_minor pos end)
              (pos_acc pos) pref) as [tonic ->].
  destruct (buildScaleFromKeyName_returns tonic mode pref)
    as (s0 & s1 & s2 & s3 & s4 & s5 & s6 & ->).
  eexists _, _, _, _, _, _, _, _; split; reflexivity.
Qed.

(** ** The keyboard shortcuts *)

Lemma index_cases (i : Z) :
  0 <= i < 12 ->
  In i [0; 1; 2; 3; 4; 5; 6; 7; 8; 9; 10; 11].
Proof. intros H; simpl; lia. Qed.

(** X15: the arrow keys keep the index of the selected position within
    0..11, where [POSITIONS] has an entry; each arrow undoes the other,
    and twelve presses of one arrow come back to the start. *)
Theorem onKey_navigation (st : UiState) :
  0 <= st_idx st < 12 ->
  (forall key,
      0 <= st_idx (onKey key st) < 12 /\
      exists pos, nth_error POSITIONS (Z.to_nat (st_idx (onKey key st))) = Some pos) /\
  onKey (js "ArrowLeft") (onKey (js "ArrowRight") st) = st /\
  onKey (js "ArrowRight") (onKey (js "ArrowLeft") st) = st /\
  Nat.iter 12 (onKey (js "ArrowRight")) st = st /\
  Nat.iter 12 (onKey (js "ArrowLeft")) st = st.
Proof.
  intros H; destruct st as [i m u e]; cbn [st_idx] in H.
  apply index_cases in H; simpl in H.
  split.
  - intros key.
    assert (R : 0 <= st_idx (onKey key {| st_idx := i; st_mode := m;
                                          st_useSevenths := u; st_enhPref := e |}) < 12).
    { unfold onKey.
      destruct (str_eqb key (js "ArrowRight")), (str_eqb key (js "ArrowLeft")),
        (str_eqb (toLowerCase key) (js "m")), (str_eqb key (js "7")),
        (str_eqb (toLowerCase key) (js "h"));
        cbn [st_idx st_mode st_useSevenths st_enhPref];
        repeat (destruct H as [H | H];
                [subst i; vm_compute; split; [discriminate | reflexivity] |]);
        contradiction. }
    split; [exact R|].
    destruct (nth_error POSITIONS (Z.to_nat (st_idx (onKey key _)))) as [pos|] eqn:E;
      [exists pos; reflexivity|].
    apply nth_error_None in E; change (List.length POSITIONS) with 12%nat in E; lia.
  - repeat (destruct H as [H | H];
            [subst i; repeat split; reflexivity |]).
    contradiction.
Qed.

Lemma onKey_navigation_witness :
  onKey (js "ArrowLeft")
    (onKey (js "ArrowRight")
       {| st_idx := 11; st_mode := minor; st_useSevenths := true;
          st_enhPref := flats |})
  = {| st_idx := 11; st_mode := minor; st_useSevenths := true;
       st_enhPref := flats |}.
Proof.
  apply (onKey_navigation {| st_idx := 11; st_mode := minor;
                             st_useSevenths := true; st_enhPref := flats |}).
  cbn [st_idx]; lia.
Defined.

(** X18: the key m, in either case, switches the mode and nothing else,
    and twice comes back; 7 switches between triads and seventh chords;
    h, in either case, goes round auto, sharps, flats in three presses;
    any other key but the two arrows leaves the state as it is. *)
Theorem onKey_toggles (st : UiState) :
  (forall key, In key [js "m"; js "M"] ->
               st_mode (onKey key st) <> st_mode st /\
               st_idx (onKey key st) = st_idx st /\
               st_useSevenths (onKey key st) = st_useSevenths st /\
               st_enhPref (onKey key st) = st_enhPref st /\
               onKey key (onKey key st) = st) /\
  (onKey (js "7") st
   = {| st_idx := st_idx st; st_mode := st_mode st;
        st_useSevenths := negb (st_useSevenths st);
        st_enhPref := st_enhPref st |} /\
   onKey (js "7") (onKey (js "7") st) = st) /\
  (forall key, In key [js "h"; js "H"] ->
               st_enhPref (onKey key st) <> st_enhPref st /\
               st_enhPref (onKey key (onKey key st)) <> st_enhPref st /\
               onKey key (onKey key (onKey key st)) = st) /\
  (forall key,
      ~ In key [js "ArrowRight"; js "ArrowLeft"; js "7"] ->
      ~ In (toLowerCase key) [js "m"; js "h"] ->
      onKey key st = st).
Proof.
  destruct st as [i m u e]; split; [| split; [| split]].
  - intros key [<- | [<- | []]]; destruct m; repeat split; discriminate.
  - destruct u; split; reflexivity.
  - intros key [<- | [<- | []]]; destruct e; repeat split; discriminate.
  - intros key H1 H2; unfold onKey.
    assert (N1 : forall k, In k [js "ArrowRight"; js "ArrowLeft"; js "7"] ->
                           str_eqb key k = false).
    { intros k Hk; apply str_eqb_neq; intros ->; exact (H1 Hk). }
    assert (N2 : forall k, In k [js "m"; js "h"] ->
                           str_eqb (toLowerCase key) k = false).
    { intros k Hk; apply str_eqb_neq; intros E; rewrite E in H2; exact (H2 Hk). }
    rewrite !N1, !N2 by (simpl; tauto); reflexivity.
Qed.

Lemma onKey_toggles_witness :
  onKey (js " ") {| st_idx := 3; st_mode := major; st_useSevenths := false;
                    st_enhPref := auto |}
  = {| st_idx := 3; st_mode := major; st_useSevenths := false;
       st_enhPref := auto |}.
Proof.
  apply (onKey_toggles {| st_idx := 3; st_mode := major; st_useSevenths := false;
                          st_enhPref := auto |});
    vm_compute; intuition discriminate.
Defined.

(** ** The tables and the circle *)

(** X19: the relative major lies three semitones above the minor tonic:
    for every key of the minor table and every preference, the MIDI
    numbers of the tonic and of the major key [relativeMajorFromMinor]
    returns differ by 3 modulo 12, also where the preference changes the
    spelling of the major key. *)
Theorem relativeMajorFromMinor_minor_third
  (tonic M : jsstring) (pref : EnhPref) :
  In (tonic, M) MINOR_REL_MAJOR ->
  interval (Str tonic) (Str (relativeMajorFromMinor tonic pref)) = Some 3.
Proof.
  intros H; simpl in H.
  repeat (destruct H as [H | H];
          [inversion H; subst tonic M; clear H; destruct pref; reflexivity |]).
  contradiction.
Qed.

Lemma relativeMajorFromMinor_minor_third_witness :
  interval (Str (js "g#")) (Str (relativeMajorFromMinor (js "g#") flats)) = Some 3.
Proof.
  apply (relativeMajorFromMinor_minor_third (js "g#") (js "B") flats).
  vm_compute; tauto.
Defined.

(** X20: the positions go round the circle in fifths: under every
    preference the major tonic of position [i] has the pitch class
    [7 * i] modulo 12 and its minor tonic the pitch class three semitones
    below; a preference changes a spelling, never a pitch. *)
Theorem positions_are_fifths_apart
  (i : nat) (pos : Pos) (pref : EnhPref) :
  nth_error POSITIONS i = Some pos ->
  exists majorTonic minorTonic,
    tonicNameForSpelling pos major pref = Returns majorTonic /\
    tonicNameForSpelling pos minor pref = Returns minorTonic /\
    pitchClass (Str majorTonic) = Some ((7 * Z.of_nat i) mod 12) /\
    pitchClass (Str minorTonic) = Some ((7 * Z.of_nat i + 9) mod 12).
Proof.
  intros H; each_position H.
  all: destruct pref.
  all: match goal with
       | |- exists a b, tonicNameForSpelling ?p major ?e = _ /\ _ =>
         let o := eval vm_compute in (tonicNameForSpelling p major e) in
         let o' := eval vm_compute in (tonicNameForSpelling p minor e) in
         lazymatch o with
         | Returns ?t =>
           lazymatch o' with
           | Returns ?t' => exists t, t'
           end
         end
       end.
  all: repeat split; vm_compute; reflexivity.
Qed.

Lemma positions_are_fifths_apart_witness :
  exists majorTonic minorTonic,
    tonicNameForSpelling
      {| pos_major := js "Db / C#"; pos_minor := js "bb / a#"; pos_acc := -5 |}
      major sharps = Returns majorTonic /\
    tonicNameForSpelling
      {| pos_major := js "Db / C#"; pos_minor := js "bb / a#"; pos_acc := -5 |}
      minor sharps = Returns minorTonic /\
    pitchClass (Str majorTonic) = Some ((7 * Z.of_nat 7) mod 12) /\
    pitchClass (Str minorTonic) = Some ((7 * Z.of_nat 7 + 9) mod 12).
Proof.
  apply (positions_are_fifths_apart 7
           {| pos_major := js "Db / C#"; pos_minor := js "bb / a#"; pos_acc := -5 |}
           sharps).
  reflexivity.
Defined.

(** X21: a key of the signature table with count [n] lies [n] fifths from
    C: its pitch class is [7 * n] modulo 12, for sharps and for flats, and
    the size of its signature set is the absolute value of [n]. *)
Theorem signature_counts_are_fifths (key : jsstring) (n : Z) :
  In (key, n) MAJOR_SIG_COUNTS ->
  pitchClass (Str key) = Some ((7 * n) mod 12) /\
  sig_count (signatureForMajorName key) = Num (Z.abs n) /\
  Z.of_nat (List.length (sig_set (signatureForMajorName key))) = Z.abs n /\
  -7 <= n <= 7.
Proof.
  intros H; simpl in H.
  repeat (destruct H as [H | H];
          [inversion H; subst key n; clear H;
           repeat split; vm_compute; solve [reflexivity | discriminate] |]).
  contradiction.
Qed.

Lemma signature_counts_are_fifths_witness :
  pitchClass (Str (js "Eb")) = Some ((7 * -3) mod 12).
Proof.
  apply (signature_counts_are_fifths (js "Eb") (-3)).
  vm_compute; tauto.
Defined.

(** ** The first entry of a scale *)

Lemma upper_lower_unit (c : N) : upper_unit (lower_unit c) = upper_unit c.
Proof.
  unfold upper_unit, lower_unit.
  destruct ((0x41 <=? c) && (c <=? 0x5A))%N eqn:U.
  - apply andb_true_iff in U; destruct U as [U1 U2]; apply N.leb_le in U1, U2.
    replace ((0x61 <=? c + 0x20) && (c + 0x20 <=? 0x7A))%N with true
      by (symmetry; apply andb_true_iff; split; apply N.leb_le; lia).
    replace ((0x61 <=? c) && (c <=? 0x7A))%N with false
      by (symmetry; apply andb_false_iff; left; apply N.leb_gt; lia).
    lia.
  - reflexivity.
Qed.

(** X22: the scale starts with the tonic as [normalizeToken] writes it, in
    major on every tonic and in minor on every ASCII tonic whose part
    before the first slash is not blank: the minor tonic, looked up in
    lower case, is stored with its letter in upper case. *)
Theorem scale_starts_with_the_tonic (tonicRaw : jsstring) (pref : EnhPref) :
  (exists rest,
      buildScaleFromKeyName tonicRaw major pref
      = Returns (Str (normalizeToken tonicRaw) :: rest)) /\
  (asciiOnly tonicRaw -> trim (fst (split slash tonicRaw)) <> [] ->
   exists rest,
     buildScaleFromKeyName tonicRaw minor pref
     = Returns (Str (normalizeToken tonicRaw) :: rest)).
Proof.
  split.
  - unfold buildScaleFromKeyName.
    set (sig := signatureForMajorName _).
    destruct (walk_signed _ sig (Str (normalizeToken tonicRaw))
                (indexOf_LETTERS (first (normalizeToken tonicRaw))))
      as (L1 & L2 & L3 & L4 & L5 & L6 & _ & ->).
    eexists; reflexivity.
  - intros A NB.
    assert (T : exists c r,
               normalizeMinorToken tonicRaw = lower_unit c :: keepMarks r /\
               normalizeToken tonicRaw = upper_unit c :: keepMarks r).
    { destruct tonicRaw as [|x n]; [contradiction NB; reflexivity|].
      unfold normalizeMinorToken, normalizeToken.
      rewrite (asciiNote_plain _ A).
      destruct (trim (fst (split slash (x :: n)))) as [|c r]; [contradiction|].
      exists c, r; split; reflexivity. }
    destruct T as (c & r & Em & Et).
    unfold buildScaleFromKeyName, minorScaleBeforeRaise; rewrite Em, Et.
    cbn [first toUpperCase map slice1 tl app].
    rewrite upper_lower_unit.
    set (sig := signatureForMajorName _).
    set (v := Str (upper_unit c :: keepMarks r)).
    destruct (walk_signed _ sig v (indexOf_LETTERS (Str [upper_unit c])))
      as (L1 & L2 & L3 & L4 & L5 & L6 & _ & ->).
    assert (G : get (v :: map (fun L => applySignature (Str L) sig)
                               [L1; L2; L3; L4; L5; L6]) 6
                = applySignature (Str L6) sig) by reflexivity.
    rewrite G.
    destruct (applySignature_letter L6 sig) as [E | [E | E]]; rewrite E;
      eexists; reflexivity.
Qed.

Lemma scale_starts_with_the_tonic_witness :
  exists rest,
    buildScaleFromKeyName (js " eb / d#") minor sharps
    = Returns (Str (normalizeToken (js " eb / d#")) :: rest).
Proof.
  apply (scale_starts_with_the_tonic (js " eb / d#") sharps).
  - repeat constructor.
  - vm_compute; discriminate.
Defined.
